(** * neurodsp.spectral.utils : array trimming, positive-frequency slicing, padding

    A shallow embedding of [neurodsp/spectral/utils.py].  NumPy arrays are
    lists (1-D) or a record of rows with an explicit column count (2-D, so
    that a shape [(0, n)] is representable); Python integers are [Z]; the
    exceptions NumPy raises on a shape mismatch are an explicit error
    result. *)

From Stdlib Require Import List ZArith QArith Qround Lia Bool.
From Stdlib Require Import Sorted.
Import ListNotations.

Set Implicit Arguments.
Open Scope Z_scope.

(** ** Exceptions and the error monad *)

Inductive exn : Type :=
| IndexError   (* boolean index did not match the indexed axis *)
| ValueError.  (* np.pad: index can't contain negative values *)

Inductive result (T : Type) : Type :=
| Ok (v : T)
| Raise (e : exn).

Arguments Ok {T} v.
Arguments Raise {T} e.

Definition bind {T U : Type} (c : result T) (k : T -> result U) : result U :=
  match c with
  | Ok v => k v
  | Raise e => Raise e
  end.

Notation "x <- c ;; k" := (bind c (fun x => k))
  (at level 61, c at next level, right associativity).
Notation "' pat <- c ;; k" := (bind c (fun x => match x with pat => k end))
  (at level 61, pat pattern, c at next level, right associativity).

(** ** Array elements

    The comparisons [>=] and [<=] the masks are built from, and the constant
    [0] used for padding; [>] only serves to state what inverted bounds
    are.  The laws hold for every NumPy numeric dtype,
    IEEE floats with NaN included (every comparison with NaN is false). *)

Class Scalar (A : Type) : Type := {
  zero : A;
  sle : A -> A -> bool;
  sge : A -> A -> bool;
  sgt : A -> A -> bool;
  sge_sle : forall x y, sge x y = sle y x;
  sgt_not_sle : forall x y, sgt x y = true -> sle x y = false;
  sle_trans : forall x y z, sle x y = true -> sle y z = true -> sle x z = true
}.

#[export] Instance Z_Scalar : Scalar Z.
Proof.
  refine {| zero := 0; sle := Z.leb; sge := Z.geb; sgt := Z.gtb |}.
  - intros x y. apply Z.geb_leb.
  - intros x y H. rewrite Z.gtb_ltb in H. apply Z.ltb_lt in H.
    apply Z.leb_gt. exact H.
  - intros x y z Hxy Hyz. apply Z.leb_le in Hxy, Hyz. apply Z.leb_le. lia.
Defined.

(** A float-like dtype: a finite value or NaN, which compares false with
    everything, itself included. *)
Inductive fnum : Type :=
| NaN
| Fin (q : Z).

Definition fnum_le (x y : fnum) : bool :=
  match x, y with
  | Fin a, Fin b => a <=? b
  | _, _ => false
  end.

Definition fnum_gt (x y : fnum) : bool :=
  match x, y with
  | Fin a, Fin b => a >? b
  | _, _ => false
  end.

#[export] Instance fnum_Scalar : Scalar fnum.
Proof.
  refine {| zero := Fin 0; sle := fnum_le; sge := fun x y => fnum_le y x;
            sgt := fnum_gt |}.
  - reflexivity.
  - intros [|a] [|b]; simpl; try discriminate.
    intros H. rewrite Z.gtb_ltb in H. apply Z.ltb_lt in H.
    apply Z.leb_gt. exact H.
  - intros [|a] [|b] [|c]; simpl; try discriminate.
    intros Hab Hbc. apply Z.leb_le in Hab, Hbc. apply Z.leb_le. lia.
Defined.

(** ** The NumPy operations the module uses *)

Module Np.

(** [arr >= x] and [arr <= x], element by element. *)
Definition greater_equal {A} {SA : Scalar A} (arr : list A) (x : A) : list bool :=
  map (fun c => sge c x) arr.

Definition less_equal {A} {SA : Scalar A} (arr : list A) (x : A) : list bool :=
  map (fun c => sle c x) arr.

(** [np.logical_and] of two masks of one shape. *)
Fixpoint logical_and (m1 m2 : list bool) : list bool :=
  match m1, m2 with
  | b1 :: m1', b2 :: m2' => (b1 && b2) :: logical_and m1' m2'
  | _, _ => []
  end.

(** The number of [True] entries of a mask. *)
Definition count_nonzero (m : list bool) : nat :=
  length (filter (fun b => b) m).

(** The elements at the [True] positions of a mask, in order. *)
Fixpoint compress {T} (m : list bool) (l : list T) : list T :=
  match m, l with
  | b :: m', x :: l' => if b then x :: compress m' l' else compress m' l'
  | _, _ => []
  end.

(** [arr[mask]], 1-D: the mask must have the length of the array. *)
Definition getitem_mask {T} (arr : list T) (m : list bool) : result (list T) :=
  if Nat.eqb (length m) (length arr) then Ok (compress m arr)
  else Raise IndexError.

(** A 2-D array: its rows and the length of axis 1, so that the shape
    [(0, n)] is told apart from [(0, 0)]. *)
Record array2 (T : Type) : Type := Array2 {
  rows : list (list T);
  ncols : nat
}.

Definition nrows {T} (a : array2 T) : nat := length (rows a).

Definition shape {T} (a : array2 T) : nat * nat := (nrows a, ncols a).

(** Every row has [ncols] elements. *)
Definition rectangular {T} (a : array2 T) : Prop :=
  Forall (fun r => length r = ncols a) (rows a).

(** [arr[mask, :]]: the mask must have the length of axis 0. *)
Definition getitem_mask_rows {T} (a : array2 T) (m : list bool)
  : result (array2 T) :=
  if Nat.eqb (length m) (nrows a)
  then Ok {| rows := compress m (rows a); ncols := ncols a |}
  else Raise IndexError.

(** [arr[:, mask]]: the mask must have the length of axis 1. *)
Definition getitem_mask_cols {T} (a : array2 T) (m : list bool)
  : result (array2 T) :=
  if Nat.eqb (length m) (ncols a)
  then Ok {| rows := map (compress m) (rows a); ncols := count_nonzero m |}
  else Raise IndexError.

(** An index of a slice brought into [0 .. len], as Python does: a
    negative index counts from the end, and both are clamped. *)
Definition clamp_index (len i : Z) : Z :=
  if i <? 0 then Z.max 0 (i + len) else Z.min i len.

(** [arr[start:stop]]; never raises. *)
Definition getitem_slice {T} (arr : list T) (start stop : Z) : list T :=
  let len := Z.of_nat (length arr) in
  let lo := clamp_index len start in
  let hi := clamp_index len stop in
  firstn (Z.to_nat (hi - lo)) (skipn (Z.to_nat lo) arr).

(** [int(np.floor(n / 2))] and [int(np.ceil(n / 2))] for an integer [n]:
    true division, then rounding. *)
Definition floor_half (n : Z) : Z := Qfloor (inject_Z n / 2).
Definition ceil_half (n : Z) : Z := Qceiling (inject_Z n / 2).

(** [np.pad(arr, (left, right), mode='constant', constant_values=0)] *)
Definition pad_constant {A} {SA : Scalar A} (arr : list A) (left right : Z)
  : result (list A) :=
  if (left <? 0) || (right <? 0) then Raise ValueError
  else Ok (repeat zero (Z.to_nat left) ++ arr ++ repeat zero (Z.to_nat right)).

End Np.

(** ** neurodsp.spectral.utils *)

(** [power_spectra]: a 1-D array, or a 2-D array [[n_spectra, n_freqs]]. *)
Inductive spectra (B : Type) : Type :=
| Spectra1 (p : list B)
| Spectra2 (p : Np.array2 B).

Arguments Spectra1 {B} p.
Arguments Spectra2 {B} p.

(** What [get_positive_fft_outputs] returns: the frequencies alone, or the
    pair when [powers] was passed. *)
Inductive fft_outputs (A B : Type) : Type :=
| Freqs (f : list A)
| FreqsPowers (f : list A) (p : list B).

Arguments Freqs {A B} f.
Arguments FreqsPowers {A B} f p.

Section Utils.
Context {A : Type} {SA : Scalar A} {B : Type}.

(** The mask both trimmers build:
    [np.logical_and(arr >= rng[0], arr <= rng[1])]. *)
Definition range_mask (arr : list A) (rng : A * A) : list bool :=
  Np.logical_and (Np.greater_equal arr (fst rng)) (Np.less_equal arr (snd rng)).

Definition trim_spectrum (freqs : list A) (power_spectra : spectra B)
    (f_range : A * A) : result (list A * spectra B) :=
  let f_mask := range_mask freqs f_range in
  freqs_ext <- Np.getitem_mask freqs f_mask ;;
  power_spectra_ext <-
    match power_spectra with
    | Spectra1 p => p' <- Np.getitem_mask p f_mask ;; Ok (Spectra1 p')
    | Spectra2 p => p' <- Np.getitem_mask_cols p f_mask ;; Ok (Spectra2 p')
    end ;;
  Ok (freqs_ext, power_spectra_ext).

Definition trim_spectrogram (freqs times : list A) (spg : Np.array2 B)
    (f_range t_range : option (A * A))
  : result (list A * list A * Np.array2 B) :=
  let spg_ext := spg in
  '(freqs_ext, spg_ext) <-
    match f_range with
    | Some f_range =>
        let f_mask := range_mask freqs f_range in
        freqs_ext <- Np.getitem_mask freqs f_mask ;;
        spg_ext <- Np.getitem_mask_rows spg_ext f_mask ;;
        Ok (freqs_ext, spg_ext)
    | None => Ok (freqs, spg_ext)
    end ;;
  '(times_ext, spg_ext) <-
    match t_range with
    | Some t_range =>
        let times_mask := range_mask times t_range in
        times_ext <- Np.getitem_mask times times_mask ;;
        spg_ext <- Np.getitem_mask_cols spg_ext times_mask ;;
        Ok (times_ext, spg_ext)
    | None => Ok (times, spg_ext)
    end ;;
  Ok (freqs_ext, times_ext, spg_ext).

Definition get_positive_fft_outputs (freqs : list A)
    (powers : option (list B)) (drop_zero : bool) : fft_outputs A B :=
  let start_ind := if drop_zero then 1 else 0 in
  let end_ind := Np.ceil_half (Z.of_nat (length freqs)) in
  match powers with
  | Some powers =>
      FreqsPowers (Np.getitem_slice freqs start_ind end_ind)
                  (Np.getitem_slice powers start_ind end_ind)
  | None => Freqs (Np.getitem_slice freqs start_ind end_ind)
  end.

(** [scipy.fft.next_fast_len] is not part of this repository. *)
Variable next_fast_len : Z -> Z.

Definition pad_signal (sig : list A) (length : Z) (fast_len : bool)
  : result (list A) :=
  if length >? Z.of_nat (List.length sig) then
    let length := if fast_len then next_fast_len length else length in
    let npad_total := length - Z.of_nat (List.length sig) in
    let npad_left := Np.floor_half npad_total in
    let npad_right := Np.ceil_half npad_total in
    Np.pad_constant sig npad_left npad_right
  else Ok sig.

End Utils.

(** ** The arrays of neurodsp/tests/spectral/test_utils.py *)

Module TestUtils.
Definition freqs5 : list Z := [5; 6; 7; 8; 9].
Definition pows5 : list Z := [1; 2; 3; 4; 5].
Definition freqs : list Z := [5; 6; 7; 8].
Definition times : list Z := [0; 1; 2].
Definition pows : Np.array2 Z :=
  Np.Array2 [[1; 2; 3]; [4; 5; 6]; [7; 8; 9]; [10; 11; 12]] 3.
(** [np.fft.fftfreq(5, 1/5)] and five powers. *)
Definition fft_freqs : list Z := [0; 1; 2; -2; -1].
Definition fft_powers : list Z := [10; 11; 12; 13; 14].
(** A stand-in for [scipy.fft.next_fast_len]: the next even length. *)
Definition next_even (n : Z) : Z := n + n mod 2.
End TestUtils.

(** ** Specification vocabulary *)

(** [Subseq s l]: [s] is [l] with some elements left out, the others in
    their order. *)
Inductive Subseq {T : Type} : list T -> list T -> Prop :=
| Subseq_nil : Subseq [] []
| Subseq_keep x s l : Subseq s l -> Subseq (x :: s) (x :: l)
| Subseq_drop x s l : Subseq s l -> Subseq s (x :: l).

(** [k] is [floor(n / 2)], resp. [ceil(n / 2)]. *)
Definition is_floor_half (n k : Z) : Prop := 2 * k <= n <= 2 * k + 1.
Definition is_ceil_half (n k : Z) : Prop := n <= 2 * k <= n + 1.

(** [out] holds the elements of [arr] at the indices [start <= j < stop],
    in their order, and nothing else. *)
Definition is_slice {T} (arr : list T) (start stop : Z) (out : list T) : Prop :=
  forall i : nat,
    nth_error out i
    = if start + Z.of_nat i <? stop
      then nth_error arr (Z.to_nat (start + Z.of_nat i))
      else None.

Section Vocabulary.
Context {A : Type} {SA : Scalar A} {B : Type}.

(** [lo <= c <= hi], both ends included. *)
Definition in_range (rng : A * A) (c : A) : Prop :=
  sle (fst rng) c = true /\ sle c (snd rng) = true.

Definition in_rangeb (rng : A * A) (c : A) : bool :=
  sle (fst rng) c && sle c (snd rng).

(** [out] is exactly the selection of the elements of [C] in range. *)
Definition selects_range (rng : A * A) (C out : list A) : Prop :=
  Forall (in_range rng) out
  /\ (forall x, In x C -> in_range rng x -> In x out)
  /\ Subseq out C
  /\ out = filter (in_rangeb rng) C.

(** What a trimmed axis of [trim_spectrogram] must be: the selection when
    a range is given, the input itself when it is [None]. *)
Definition axis_trimmed (rng : option (A * A)) (C out : list A) : Prop :=
  match rng with
  | Some r => selects_range r C out
  | None => out = C
  end.

(** The mask of the contract: [M[i] = (C[i] >= low) AND (C[i] <= high)]. *)
Definition contract_mask (rng : A * A) (C : list A) : list bool :=
  map (fun c => sge c (fst rng) && sle c (snd rng)) C.

(** [arr[M]] read position by position: the values paired with [true]. *)
Definition masked {T} (M : list bool) (arr : list T) : list T :=
  map snd (filter fst (combine M arr)).

(** The length of the frequency axis of [power_spectra]. *)
Definition freq_axis_len (ps : spectra B) : nat :=
  match ps with
  | Spectra1 p => length p
  | Spectra2 p => Np.ncols p
  end.

(** [power_spectra] with its frequency axis masked. *)
Definition spectra_masked (m : list bool) (ps : spectra B) : spectra B :=
  match ps with
  | Spectra1 p => Spectra1 (masked m p)
  | Spectra2 p =>
      Spectra2 {| Np.rows := map (masked m) (Np.rows p);
                  Np.ncols := length (filter (fun b => b) m) |}
  end.

(** One axis of a spectrogram selection: the coordinates kept, and the
    mask applied to the data ([None]: everything is kept). *)
Definition axis_kept (rng : option (A * A)) (C : list A) : list A :=
  match rng with
  | Some r => filter (in_rangeb r) C
  | None => C
  end.

Definition spg_selected (f_range t_range : option (A * A))
    (freqs times : list A) (spg : Np.array2 B) : Np.array2 B :=
  let kept_rows :=
    match f_range with
    | Some r => masked (contract_mask r freqs) (Np.rows spg)
    | None => Np.rows spg
    end in
  match t_range with
  | Some r => {| Np.rows := map (masked (contract_mask r times)) kept_rows;
                 Np.ncols := length (filter (in_rangeb r) times) |}
  | None => {| Np.rows := kept_rows; Np.ncols := Np.ncols spg |}
  end.

(** A 2-D [power_spectra] has rows of one length. *)
Definition spectra_rectangular (ps : spectra B) : Prop :=
  match ps with
  | Spectra1 _ => True
  | Spectra2 p => Np.rectangular p
  end.

(** The number of spectra held ([1] for a 1-D array). *)
Definition n_spectra (ps : spectra B) : nat :=
  match ps with
  | Spectra1 _ => 1
  | Spectra2 p => Np.nrows p
  end.

(** Every spectrum held is empty. *)
Definition spectra_all_empty (ps : spectra B) : Prop :=
  match ps with
  | Spectra1 p => p = []
  | Spectra2 p => Forall (fun r => r = []) (Np.rows p)
  end.

(** The bounds are inverted, or no element of [C] lies between them. *)
Definition no_match (rng : A * A) (C : list A) : Prop :=
  sgt (fst rng) (snd rng) = true \/ Forall (fun c => ~ in_range rng c) C.

Definition out_freqs (o : fft_outputs A B) : list A :=
  match o with
  | Freqs f => f
  | FreqsPowers f _ => f
  end.

Definition out_powers (o : fft_outputs A B) : option (list B) :=
  match o with
  | Freqs _ => None
  | FreqsPowers _ p => Some p
  end.

(** The target length after the optional adjustment. *)
Definition adjusted_length (next_fast_len : Z -> Z) (length : Z)
    (fast_len : bool) : Z :=
  if fast_len then next_fast_len length else length.

(** The output of [pad_signal] has the adjusted target length. *)
Definition output_has_target_length (next_fast_len : Z -> Z) (sig : list A)
    (length : Z) (fast_len : bool) : Prop :=
  exists out, pad_signal next_fast_len sig length fast_len = Ok out
    /\ Z.of_nat (List.length out) = adjusted_length next_fast_len length fast_len.

End Vocabulary.

(** ** Vocabulary of the further properties *)

(** [np.arange(a, b)] for integers. *)
Definition arange (a b : Z) : list Z :=
  map (fun i => a + Z.of_nat i) (seq 0 (Z.to_nat (b - a))).

(** [np.fft.fftfreq(n, d)] in units of [1 / (n * d)], as numpy computes it:
    [N = (n - 1) // 2 + 1], then [arange(0, N)] followed by
    [arange(-(n // 2), 0)]. *)
Definition fftfreq_bins (n : Z) : list Z :=
  let N := (n - 1) / 2 + 1 in
  arange 0 N ++ arange (- (n / 2)) 0.

Section MoreVocabulary.
Context {A : Type} {SA : Scalar A} {B : Type}.

(** [inner] lies within [outer], ends included. *)
Definition range_within (inner outer : A * A) : Prop :=
  sle (fst outer) (fst inner) = true /\ sle (snd inner) (snd outer) = true.

(** [trim_spectrum] with [r1], then with [r2] on what it returned. *)
Definition trim_spectrum_twice (freqs : list A) (ps : spectra B)
    (r1 r2 : A * A) : result (list A * spectra B) :=
  '(f1, p1) <- trim_spectrum freqs ps r1 ;; trim_spectrum f1 p1 r2.


(** The coordinate array is non-decreasing. *)
Definition increasing (C : list A) : Prop :=
  StronglySorted (fun x y => sle x y = true) C.

End MoreVocabulary.

(** * Properties *)

(** ** Masks and selections *)

Section MaskLemmas.
Context {A : Type} {SA : Scalar A}.

Lemma in_rangeb_spec (rng : A * A) (c : A) :
  in_rangeb rng c = true <-> in_range rng c.
Proof. unfold in_rangeb, in_range. apply andb_true_iff. Qed.

Lemma range_mask_map (arr : list A) (rng : A * A) :
  range_mask arr rng = map (in_rangeb rng) arr.
Proof.
  unfold range_mask, Np.greater_equal, Np.less_equal, in_rangeb.
  induction arr as [|c arr IH]; simpl; [reflexivity|].
  rewrite IH, sge_sle. reflexivity.
Qed.

Lemma range_mask_contract (arr : list A) (rng : A * A) :
  range_mask arr rng = contract_mask rng arr.
Proof.
  rewrite range_mask_map. unfold contract_mask, in_rangeb.
  apply map_ext. intros c. rewrite sge_sle. reflexivity.
Qed.

Lemma range_mask_length (arr : list A) (rng : A * A) :
  length (range_mask arr rng) = length arr.
Proof. rewrite range_mask_map. apply length_map. Qed.
End MaskLemmas.

Lemma compress_map_filter {T} (p : T -> bool) (l : list T) :
  Np.compress (map p l) l = filter p l.
Proof.
  induction l as [|x l IH]; simpl; [reflexivity|].
  rewrite IH. reflexivity.
Qed.

Lemma compress_masked {T} (m : list bool) (l : list T) :
  Np.compress m l = masked m l.
Proof.
  unfold masked. revert l.
  induction m as [|b m IH]; intros [|x l]; simpl; try reflexivity.
  destruct b; simpl; rewrite IH; reflexivity.
Qed.

Lemma compress_Subseq {T} (m : list bool) (l : list T) :
  Subseq (Np.compress m l) l.
Proof.
  revert m. induction l as [|x l IH]; intros [|b m]; simpl.
  - constructor.
  - constructor.
  - constructor. apply (IH []).
  - destruct b; constructor; apply IH.
Qed.

Lemma compress_nil_r {T} (m : list bool) : Np.compress m (@nil T) = [].
Proof. destruct m; reflexivity. Qed.

Lemma count_nonzero_cons (b : bool) (m : list bool) :
  Np.count_nonzero (b :: m) = ((if b then 1 else 0) + Np.count_nonzero m)%nat.
Proof. unfold Np.count_nonzero. simpl. destruct b; reflexivity. Qed.

Lemma count_nonzero_map {T} (p : T -> bool) (l : list T) :
  Np.count_nonzero (map p l) = length (filter p l).
Proof.
  induction l as [|x l IH]; [reflexivity|].
  simpl map. rewrite count_nonzero_cons, IH. simpl.
  destruct (p x); reflexivity.
Qed.

Lemma compress_length {T} (m : list bool) (l : list T) :
  length m = length l -> length (Np.compress m l) = Np.count_nonzero m.
Proof.
  revert l. induction m as [|b m IH]; intros [|x l] H; simpl in *;
    try reflexivity; try discriminate.
  injection H as H. rewrite count_nonzero_cons.
  destruct b; simpl; rewrite (IH _ H); reflexivity.
Qed.

Lemma compress_length_le {T} (m : list bool) (l : list T) :
  (length (Np.compress m l) <= Np.count_nonzero m)%nat.
Proof.
  revert l. induction m as [|b m IH]; intros [|x l]; simpl;
    try apply Nat.le_0_l.
  rewrite count_nonzero_cons. specialize (IH l).
  destruct b; simpl; lia.
Qed.

Lemma compress_all_true {T} (m : list bool) (l : list T) :
  Forall (fun b => b = true) m -> (length l <= length m)%nat ->
  Np.compress m l = l.
Proof.
  intros Hm. revert l.
  induction Hm as [|b m Hb Hm IH]; intros [|x l] Hlen; simpl in *;
    try reflexivity; try lia.
  subst b. rewrite IH by lia. reflexivity.
Qed.

Lemma compress_all_false {T} (m : list bool) (l : list T) :
  Forall (fun b => b = false) m -> Np.compress m l = [].
Proof.
  intros Hm. revert l.
  induction Hm as [|b m Hb Hm IH]; intros [|x l]; simpl; try reflexivity.
  subst b. apply IH.
Qed.

Lemma compress_compress {T} (m1 m2 : list bool) (ll : list (list T)) :
  Np.compress m1 (map (Np.compress m2) ll)
  = map (Np.compress m2) (Np.compress m1 ll).
Proof.
  revert ll. induction m1 as [|b m1 IH]; intros [|r ll]; simpl;
    try reflexivity.
  destruct b; simpl; rewrite IH; reflexivity.
Qed.

Lemma getitem_mask_ok {T} (arr : list T) (m : list bool) :
  length m = length arr -> Np.getitem_mask arr m = Ok (Np.compress m arr).
Proof.
  intros H. unfold Np.getitem_mask.
  rewrite (proj2 (Nat.eqb_eq _ _) H). reflexivity.
Qed.

Lemma getitem_mask_rows_ok {T} (a : Np.array2 T) (m : list bool) :
  length m = Np.nrows a ->
  Np.getitem_mask_rows a m
  = Ok {| Np.rows := Np.compress m (Np.rows a); Np.ncols := Np.ncols a |}.
Proof.
  intros H. unfold Np.getitem_mask_rows.
  rewrite (proj2 (Nat.eqb_eq _ _) H). reflexivity.
Qed.

Lemma getitem_mask_cols_ok {T} (a : Np.array2 T) (m : list bool) :
  length m = Np.ncols a ->
  Np.getitem_mask_cols a m
  = Ok {| Np.rows := map (Np.compress m) (Np.rows a);
          Np.ncols := Np.count_nonzero m |}.
Proof.
  intros H. unfold Np.getitem_mask_cols.
  rewrite (proj2 (Nat.eqb_eq _ _) H). reflexivity.
Qed.

Lemma map_compress_masked {T} (m : list bool) (ll : list (list T)) :
  map (Np.compress m) ll = map (masked m) ll.
Proof. apply map_ext. intros r. apply compress_masked. Qed.

Lemma filter_filter_same {T} (p : T -> bool) (l : list T) :
  filter p (filter p l) = filter p l.
Proof.
  induction l as [|x l IH]; simpl; [reflexivity|].
  destruct (p x) eqn:E; simpl; [rewrite E, IH|]; auto.
Qed.

Lemma map_filter_all_true {T} (p : T -> bool) (l : list T) :
  Forall (fun b => b = true) (map p (filter p l)).
Proof.
  apply Forall_map, Forall_forall. intros x Hx.
  apply filter_In in Hx. tauto.
Qed.

(** ** What the two trimmers return on aligned input *)

Section Trimmers.
Context {A : Type} {SA : Scalar A} {B : Type}.

Lemma filter_selects_range (rng : A * A) (C : list A) :
  selects_range rng C (filter (in_rangeb rng) C).
Proof.
  repeat split.
  - apply Forall_forall. intros x Hx. apply filter_In in Hx.
    apply in_rangeb_spec. tauto.
  - intros x Hx Hr. apply filter_In. split; [exact Hx|].
    apply in_rangeb_spec. exact Hr.
  - rewrite <- compress_map_filter. apply compress_Subseq.
Qed.

Lemma range_mask_select (rng : A * A) (C : list A) :
  Np.compress (range_mask C rng) C = filter (in_rangeb rng) C.
Proof. rewrite range_mask_map. apply compress_map_filter. Qed.

Lemma range_mask_count (rng : A * A) (C : list A) :
  Np.count_nonzero (range_mask C rng) = length (filter (in_rangeb rng) C).
Proof. rewrite range_mask_map. apply count_nonzero_map. Qed.

Lemma trim_spectrum_aligned (freqs : list A) (ps : spectra B) (rng : A * A) :
  freq_axis_len ps = length freqs ->
  trim_spectrum freqs ps rng
  = Ok (filter (in_rangeb rng) freqs,
        spectra_masked (contract_mask rng freqs) ps).
Proof.
  intros Hlen. unfold trim_spectrum.
  rewrite getitem_mask_ok by apply range_mask_length.
  rewrite range_mask_select. simpl.
  destruct ps as [p|p]; simpl in *.
  - rewrite getitem_mask_ok by (rewrite range_mask_length; auto).
    simpl. rewrite compress_masked, range_mask_contract. reflexivity.
  - rewrite getitem_mask_cols_ok by (rewrite range_mask_length; auto).
    simpl. rewrite map_compress_masked, range_mask_contract. reflexivity.
Qed.

Lemma trim_spectrogram_aligned (freqs times : list A) (spg : Np.array2 B)
    (f_range t_range : option (A * A)) :
  Np.shape spg = (length freqs, length times) ->
  trim_spectrogram freqs times spg f_range t_range
  = Ok (axis_kept f_range freqs, axis_kept t_range times,
        spg_selected f_range t_range freqs times spg).
Proof.
  intros Hshape. injection Hshape as Hr Hc.
  unfold trim_spectrogram, spg_selected.
  destruct f_range as [fr|], t_range as [tr|]; simpl.
  - rewrite getitem_mask_ok by apply range_mask_length.
    rewrite getitem_mask_rows_ok by (rewrite range_mask_length; auto).
    simpl. rewrite getitem_mask_ok by apply range_mask_length.
    rewrite getitem_mask_cols_ok by (rewrite range_mask_length; auto).
    simpl. rewrite !range_mask_select, map_compress_masked, compress_masked.
    rewrite range_mask_count, !range_mask_contract. reflexivity.
  - rewrite getitem_mask_ok by apply range_mask_length.
    rewrite getitem_mask_rows_ok by (rewrite range_mask_length; auto).
    simpl. rewrite range_mask_select, compress_masked, range_mask_contract.
    reflexivity.
  - rewrite getitem_mask_ok by apply range_mask_length.
    rewrite getitem_mask_cols_ok by (rewrite range_mask_length; auto).
    simpl. rewrite range_mask_select, map_compress_masked.
    rewrite range_mask_count, range_mask_contract. reflexivity.
  - destruct spg. reflexivity.
Qed.

Lemma axis_kept_trimmed (rng : option (A * A)) (C : list A) :
  axis_trimmed rng C (axis_kept rng C).
Proof.
  destruct rng as [r|]; simpl; [apply filter_selects_range|reflexivity].
Qed.

(** C1. Trimming selects exactly the coordinates in range.  On aligned
    input [trim_spectrum] returns, and its frequencies are the elements of
    [freqs] with [lo <= c <= hi], both ends included: each one returned is
    in range, each one in range is returned, and the order is that of
    [freqs]; [trim_spectrogram] returns, and the same holds of its
    frequencies and of its times for every range that is given. *)
Theorem trim_selects_range (freqs times : list A) (ps : spectra B)
    (spg : Np.array2 B) (rng : A * A) (f_range t_range : option (A * A))
    (Hps : freq_axis_len ps = length freqs)
    (Hspg : Np.shape spg = (length freqs, length times)) :
  (exists freqs_ext ps_ext,
      trim_spectrum freqs ps rng = Ok (freqs_ext, ps_ext)
      /\ selects_range rng freqs freqs_ext)
  /\ (exists freqs_ext times_ext spg_ext,
      trim_spectrogram freqs times spg f_range t_range
      = Ok (freqs_ext, times_ext, spg_ext)
      /\ axis_trimmed f_range freqs freqs_ext
      /\ axis_trimmed t_range times times_ext).
Proof.
  split.
  - eexists; eexists. split.
    + apply trim_spectrum_aligned. exact Hps.
    + apply filter_selects_range.
  - do 3 eexists. split; [|split].
    + apply trim_spectrogram_aligned. exact Hspg.
    + apply axis_kept_trimmed.
    + apply axis_kept_trimmed.
Qed.

Lemma contract_mask_map (rng : A * A) (C : list A) :
  contract_mask rng C = map (in_rangeb rng) C.
Proof. rewrite <- range_mask_contract. apply range_mask_map. Qed.

Lemma contract_mask_length (rng : A * A) (C : list A) :
  length (contract_mask rng C) = length C.
Proof. apply length_map. Qed.

Lemma contract_mask_count (rng : A * A) (C : list A) :
  length (filter (fun b => b) (contract_mask rng C))
  = length (filter (in_rangeb rng) C).
Proof. rewrite contract_mask_map. apply count_nonzero_map. Qed.

Lemma masked_contract_self (rng : A * A) (C : list A) :
  masked (contract_mask rng C) C = filter (in_rangeb rng) C.
Proof.
  rewrite <- compress_masked, contract_mask_map. apply compress_map_filter.
Qed.

Lemma masked_length {T} (m : list bool) (l : list T) :
  length m = length l ->
  length (masked m l) = length (filter (fun b => b) m).
Proof. rewrite <- compress_masked. apply compress_length. Qed.

(** The mask computed on an already trimmed axis keeps everything. *)
Lemma contract_mask_retrim (rng : A * A) (C : list A) :
  Forall (fun b => b = true)
         (contract_mask rng (filter (in_rangeb rng) C))
  /\ length (contract_mask rng (filter (in_rangeb rng) C))
     = length (filter (fun b => b) (contract_mask rng C)).
Proof.
  split.
  - rewrite contract_mask_map. apply map_filter_all_true.
  - rewrite contract_mask_length, contract_mask_count. reflexivity.
Qed.

Lemma masked_retrim {T} (rng : A * A) (C : list A) (l : list T) :
  masked (contract_mask rng (filter (in_rangeb rng) C))
         (masked (contract_mask rng C) l)
  = masked (contract_mask rng C) l.
Proof.
  destruct (contract_mask_retrim rng C) as [Hall Hlen].
  rewrite <- !compress_masked. apply compress_all_true; [exact Hall|].
  rewrite Hlen. apply compress_length_le.
Qed.

Lemma masked_retrim_rows {T} (rng : A * A) (C : list A) (ll : list (list T)) :
  map (masked (contract_mask rng (filter (in_rangeb rng) C)))
      (map (masked (contract_mask rng C)) ll)
  = map (masked (contract_mask rng C)) ll.
Proof.
  rewrite map_map. apply map_ext. intros r. apply masked_retrim.
Qed.

Lemma masked_retrim_whole {T} (rng : A * A) (C : list A) (l : list T) :
  length l = length (filter (in_rangeb rng) C) ->
  masked (contract_mask rng (filter (in_rangeb rng) C)) l = l.
Proof.
  intros Hl. destruct (contract_mask_retrim rng C) as [Hall Hlen].
  rewrite <- compress_masked. apply compress_all_true; [exact Hall|].
  rewrite contract_mask_length, Hl. apply Nat.le_refl.
Qed.

Lemma spectra_masked_axis_len (m : list bool) (ps : spectra B) :
  length m = freq_axis_len ps ->
  freq_axis_len (spectra_masked m ps) = length (filter (fun b => b) m).
Proof.
  destruct ps as [p|p]; simpl; intros H; [|reflexivity].
  apply masked_length. exact H.
Qed.

Lemma spectra_masked_rectangular (m : list bool) (ps : spectra B) :
  length m = freq_axis_len ps -> spectra_rectangular ps ->
  spectra_rectangular (spectra_masked m ps)
  /\ n_spectra (spectra_masked m ps) = n_spectra ps.
Proof.
  destruct ps as [p|p]; simpl; intros Hm Hrect; [tauto|].
  unfold Np.rectangular, Np.nrows in *. simpl. split.
  - apply Forall_map. revert Hrect. apply Forall_impl. intros r Hr.
    apply masked_length. congruence.
  - apply length_map.
Qed.

(** The general part of C2. *)
Lemma trim_spectrum_masked (freqs : list A) (ps : spectra B) (rng : A * A) :
  freq_axis_len ps = length freqs -> spectra_rectangular ps ->
  let M := contract_mask rng freqs in
  trim_spectrum freqs ps rng = Ok (masked M freqs, spectra_masked M ps)
  /\ freq_axis_len (spectra_masked M ps) = length (masked M freqs)
  /\ spectra_rectangular (spectra_masked M ps)
  /\ n_spectra (spectra_masked M ps) = n_spectra ps.
Proof.
  intros Hlen Hrect M. unfold M.
  assert (HM : length (contract_mask rng freqs) = freq_axis_len ps)
    by (rewrite contract_mask_length; auto).
  split; [|split].
  - rewrite masked_contract_self. apply trim_spectrum_aligned. exact Hlen.
  - rewrite spectra_masked_axis_len by exact HM.
    symmetry. apply masked_length. apply contract_mask_length.
  - apply spectra_masked_rectangular; assumption.
Qed.

(** The shape of a spectrogram selection is that of its coordinates. *)
Lemma spg_selected_shape (freqs times : list A) (spg : Np.array2 B)
    (f_range t_range : option (A * A)) :
  Np.shape spg = (length freqs, length times) ->
  Np.shape (spg_selected f_range t_range freqs times spg)
  = (length (axis_kept f_range freqs), length (axis_kept t_range times)).
Proof.
  intros Hshape. injection Hshape as Hr Hc. unfold Np.nrows in Hr.
  assert (Hf : forall r, length (masked (contract_mask r freqs) (Np.rows spg))
                         = length (filter (in_rangeb r) freqs)).
  { intros r. rewrite masked_length by (rewrite contract_mask_length; auto).
    apply contract_mask_count. }
  unfold Np.shape, Np.nrows, spg_selected.
  destruct f_range as [fr|], t_range as [tr|]; simpl;
    rewrite ?length_map, ?Hf; congruence.
Qed.

Lemma masked_rows_cols {T} (m1 m2 : list bool) (ll : list (list T)) :
  masked m1 (map (masked m2) ll) = map (masked m2) (masked m1 ll).
Proof.
  rewrite <- !compress_masked, <- map_compress_masked.
  rewrite compress_compress, map_compress_masked. reflexivity.
Qed.

(** C3. [trim_spectrogram] trims its two axes independently.  On a
    spectrogram of shape [[F, T]], trimming the frequencies and then the
    times of the result, trimming the times and then the frequencies, and
    one call with both ranges all return the same triple; with
    [t_range = None] the times come back as given and every row kept is a
    whole row of [spg]; with [f_range = None] the frequencies come back as
    given and every row of [spg] is kept, masked along time only; with
    neither range the three inputs come back. *)
Theorem trim_spectrogram_axes_commute (freqs times : list A)
    (spg : Np.array2 B) (f_range t_range : A * A)
    (Hspg : Np.shape spg = (length freqs, length times)) :
  exists freqs_ext times_ext spg_ext,
    trim_spectrogram freqs times spg (Some f_range) (Some t_range)
    = Ok (freqs_ext, times_ext, spg_ext)
    /\ ('(f1, t1, s1) <- trim_spectrogram freqs times spg (Some f_range) None ;;
        trim_spectrogram f1 t1 s1 None (Some t_range))
       = Ok (freqs_ext, times_ext, spg_ext)
    /\ ('(f1, t1, s1) <- trim_spectrogram freqs times spg None (Some t_range) ;;
        trim_spectrogram f1 t1 s1 (Some f_range) None)
       = Ok (freqs_ext, times_ext, spg_ext)
    /\ (exists s, trim_spectrogram freqs times spg (Some f_range) None
                  = Ok (freqs_ext, times, s)
                  /\ Np.ncols s = Np.ncols spg
                  /\ Subseq (Np.rows s) (Np.rows spg))
    /\ (exists s, trim_spectrogram freqs times spg None (Some t_range)
                  = Ok (freqs, times_ext, s)
                  /\ Np.nrows s = Np.nrows spg
                  /\ Np.rows s
                     = map (masked (contract_mask t_range times)) (Np.rows spg))
    /\ trim_spectrogram freqs times spg None None = Ok (freqs, times, spg).
Proof.
  exists (axis_kept (Some f_range) freqs), (axis_kept (Some t_range) times),
         (spg_selected (Some f_range) (Some t_range) freqs times spg).
  pose proof (@trim_spectrogram_aligned freqs times spg) as Hrun.
  split; [apply Hrun; exact Hspg|].
  split; [|split; [|split; [|split]]].
  - rewrite (Hrun (Some f_range) None Hspg). simpl bind.
    rewrite trim_spectrogram_aligned.
    + reflexivity.
    + apply (@spg_selected_shape freqs times spg (Some f_range) None Hspg).
  - rewrite (Hrun None (Some t_range) Hspg). simpl bind.
    rewrite trim_spectrogram_aligned.
    + unfold spg_selected. simpl. rewrite masked_rows_cols. reflexivity.
    + apply (@spg_selected_shape freqs times spg None (Some t_range) Hspg).
  - eexists. split; [apply Hrun; exact Hspg|]. simpl.
    split; [reflexivity|]. rewrite <- compress_masked.
    apply compress_Subseq.
  - eexists. split; [apply Hrun; exact Hspg|]. simpl.
    split; [apply length_map | reflexivity].
  - rewrite (Hrun None None Hspg). simpl. destruct spg. reflexivity.
Qed.

(** C8. Re-trimming is idempotent.  On aligned input [trim_spectrum]
    returns a pair on which [trim_spectrum] with the same [f_range]
    returns that pair again, and [trim_spectrogram] returns a triple on
    which [trim_spectrogram] with the same [f_range] and [t_range] returns
    that triple again. *)
Theorem retrim_is_identity (freqs times : list A) (ps : spectra B)
    (spg : Np.array2 B) (rng : A * A) (f_range t_range : option (A * A))
    (Hps : freq_axis_len ps = length freqs)
    (Hspg : Np.shape spg = (length freqs, length times)) :
  (exists freqs_ext ps_ext,
      trim_spectrum freqs ps rng = Ok (freqs_ext, ps_ext)
      /\ trim_spectrum freqs_ext ps_ext rng = Ok (freqs_ext, ps_ext))
  /\ (exists freqs_ext times_ext spg_ext,
      trim_spectrogram freqs times spg f_range t_range
      = Ok (freqs_ext, times_ext, spg_ext)
      /\ trim_spectrogram freqs_ext times_ext spg_ext f_range t_range
         = Ok (freqs_ext, times_ext, spg_ext)).
Proof.
  split.
  - do 2 eexists. split; [apply trim_spectrum_aligned; exact Hps|].
    assert (HM : length (contract_mask rng freqs) = freq_axis_len ps)
      by (rewrite contract_mask_length; auto).
    rewrite trim_spectrum_aligned.
    + rewrite filter_filter_same. do 2 f_equal.
      destruct (contract_mask_retrim rng freqs) as [Hall Hcnt].
      destruct ps as [p|p]; simpl.
      * rewrite masked_retrim. reflexivity.
      * rewrite masked_retrim_rows. do 2 f_equal.
        rewrite <- Hcnt. f_equal.
        clear Hcnt. induction Hall as [|b m Hb Hm IH]; simpl;
          [reflexivity|]. subst b. simpl. f_equal. exact IH.
    + rewrite spectra_masked_axis_len by exact HM.
      apply contract_mask_count.
  - do 3 eexists. split; [apply trim_spectrogram_aligned; exact Hspg|].
    pose proof (@spg_selected_shape freqs times spg f_range t_range Hspg) as Hsh.
    rewrite (@trim_spectrogram_aligned _ _ _ f_range t_range Hsh).
    injection Hsh as Hr Hc. unfold Np.nrows in Hr.
    do 2 f_equal; [f_equal|].
    + destruct f_range as [fr|]; simpl; [apply filter_filter_same|reflexivity].
    + destruct t_range as [tr|]; simpl; [apply filter_filter_same|reflexivity].
    + revert Hr Hc. unfold spg_selected.
      destruct f_range as [fr|], t_range as [tr|]; simpl; intros Hr Hc.
      * rewrite (masked_retrim_whole fr freqs _ Hr).
        rewrite masked_retrim_rows, filter_filter_same. reflexivity.
      * rewrite (masked_retrim_whole fr freqs _ Hr). reflexivity.
      * rewrite masked_retrim_rows, filter_filter_same. reflexivity.
      * reflexivity.
Qed.

Lemma no_match_in_rangeb (rng : A * A) (C : list A) :
  no_match rng C -> Forall (fun c => in_rangeb rng c = false) C.
Proof.
  intros [Hinv|Hnone]; apply Forall_forall; intros c Hc.
  - apply sgt_not_sle in Hinv. unfold in_rangeb.
    destruct (sle (fst rng) c) eqn:Hlo; [|reflexivity].
    destruct (sle c (snd rng)) eqn:Hhi; [|reflexivity].
    rewrite (sle_trans _ _ _ Hlo Hhi) in Hinv. discriminate.
  - rewrite Forall_forall in Hnone. specialize (Hnone c Hc).
    destruct (in_rangeb rng c) eqn:E; [|reflexivity].
    apply in_rangeb_spec in E. contradiction.
Qed.

Lemma no_match_filter (rng : A * A) (C : list A) :
  no_match rng C -> filter (in_rangeb rng) C = [].
Proof.
  intros H. apply no_match_in_rangeb in H.
  induction H as [|c C Hc HC IH]; simpl; [reflexivity|].
  rewrite Hc. exact IH.
Qed.

Lemma no_match_masked {T} (rng : A * A) (C : list A) (l : list T) :
  no_match rng C -> masked (contract_mask rng C) l = [].
Proof.
  intros H. apply no_match_in_rangeb in H.
  rewrite <- compress_masked. apply compress_all_false.
  rewrite contract_mask_map. apply Forall_map. exact H.
Qed.

(** C9. An empty selection is a result, not an error.  On aligned input,
    when [f_low > f_high] or no frequency lies in [f_range],
    [trim_spectrum] returns an empty frequency array and power spectra
    of length zero along the frequency axis (as many spectra as were
    given, each empty); [trim_spectrogram] with such an [f_range] returns
    no frequencies and a spectrogram without rows, and with such a
    [t_range] no times and a spectrogram whose rows are all empty. *)
Theorem empty_selection_is_valid (freqs times : list A) (ps : spectra B)
    (spg : Np.array2 B) (rng : A * A) (f_range t_range : option (A * A))
    (Hps : freq_axis_len ps = length freqs)
    (Hspg : Np.shape spg = (length freqs, length times)) :
  (no_match rng freqs ->
     exists ps_ext,
       trim_spectrum freqs ps rng = Ok ([], ps_ext)
       /\ freq_axis_len ps_ext = 0%nat
       /\ spectra_all_empty ps_ext
       /\ n_spectra ps_ext = n_spectra ps)
  /\ (no_match rng freqs ->
     exists times_ext spg_ext,
       trim_spectrogram freqs times spg (Some rng) t_range
       = Ok ([], times_ext, spg_ext)
       /\ Np.rows spg_ext = []
       /\ Np.nrows spg_ext = 0%nat)
  /\ (no_match rng times ->
     exists freqs_ext spg_ext,
       trim_spectrogram freqs times spg f_range (Some rng)
       = Ok (freqs_ext, [], spg_ext)
       /\ Np.ncols spg_ext = 0%nat
       /\ Forall (fun r => r = []) (Np.rows spg_ext)).
Proof.
  split; [|split]; intros Hno.
  - eexists. rewrite (@trim_spectrum_aligned freqs ps rng Hps).
    rewrite (no_match_filter Hno). split; [reflexivity|].
    destruct ps as [p|p]; simpl.
    + rewrite (no_match_masked _ Hno). auto.
    + rewrite contract_mask_count, (no_match_filter Hno).
      split; [reflexivity|]. split.
      * apply Forall_map, Forall_forall. intros r _.
        apply (no_match_masked _ Hno).
      * unfold Np.nrows. simpl. apply length_map.
  - do 2 eexists.
    rewrite (@trim_spectrogram_aligned _ _ _ (Some rng) t_range Hspg).
    simpl axis_kept at 1. rewrite (no_match_filter Hno).
    split; [reflexivity|].
    assert (Hrows : Np.rows (spg_selected (Some rng) t_range freqs times spg)
                    = []).
    { unfold spg_selected. rewrite (no_match_masked _ Hno).
      destruct t_range; reflexivity. }
    split; [exact Hrows|]. unfold Np.nrows. rewrite Hrows. reflexivity.
  - do 2 eexists.
    rewrite (@trim_spectrogram_aligned _ _ _ f_range (Some rng) Hspg).
    simpl axis_kept at 2. rewrite (no_match_filter Hno).
    split; [reflexivity|]. unfold spg_selected. simpl.
    rewrite (no_match_filter Hno). split; [reflexivity|].
    apply Forall_map, Forall_forall. intros r _.
    apply (no_match_masked _ Hno).
Qed.

End Trimmers.

(** C2. [trim_spectrum] returns [(freqs[mask], power_spectra[mask])] for a
    1-D [power_spectra] of the length of [freqs], and
    [(freqs[mask], power_spectra[:, mask])] for a 2-D one whose last axis has
    that length, where [mask[i] = (freqs[i] >= f_low) AND (freqs[i] <= f_high)];
    the two outputs have one length along the trimmed axis (each row, when
    2-D, and the number of spectra is unchanged); and on
    [freqs = [5,6,7,8,9]], [pows = [1,2,3,4,5]], [f_range = [6,8]] it returns
    [[6,7,8]] and [[2,3,4]]. *)
Theorem trim_spectrum_masks_last_axis :
  (forall (A : Type) (SA : Scalar A) (B : Type) (freqs : list A) (p : list B)
          (f_range : A * A),
      length p = length freqs ->
      let mask := contract_mask f_range freqs in
      trim_spectrum freqs (Spectra1 p) f_range
      = Ok (masked mask freqs, Spectra1 (masked mask p))
      /\ length (masked mask p) = length (masked mask freqs))
  /\ (forall (A : Type) (SA : Scalar A) (B : Type) (freqs : list A)
            (p : Np.array2 B) (f_range : A * A),
      Np.ncols p = length freqs -> Np.rectangular p ->
      let mask := contract_mask f_range freqs in
      exists p_ext,
        trim_spectrum freqs (Spectra2 p) f_range
        = Ok (masked mask freqs, Spectra2 p_ext)
        /\ Np.rows p_ext = map (masked mask) (Np.rows p)
        /\ Np.shape p_ext = (Np.nrows p, length (masked mask freqs))
        /\ Np.rectangular p_ext)
  /\ trim_spectrum [5; 6; 7; 8; 9] (Spectra1 [1; 2; 3; 4; 5]) (6, 8)
     = Ok ([6; 7; 8], Spectra1 [2; 3; 4]).
Proof.
  split; [|split].
  - intros A SA B freqs p f_range Hlen mask.
    destruct (@trim_spectrum_masked A SA B freqs (Spectra1 p) f_range Hlen I)
      as (Heq & Hax & _).
    split; [exact Heq | exact Hax].
  - intros A SA B freqs p f_range Hlen Hrect mask.
    destruct (@trim_spectrum_masked A SA B freqs (Spectra2 p) f_range Hlen Hrect)
      as (Heq & Hax & Hr & Hn).
    eexists. split; [exact Heq|]. simpl in *.
    split; [reflexivity|]. split; [|exact Hr].
    unfold Np.shape. f_equal; [exact Hn | exact Hax].
  - reflexivity.
Qed.

Lemma trim_spectrum_masks_last_axis_witness :
  (trim_spectrum [5; 6; 7; 8; 9] (Spectra1 [1; 2; 3; 4; 5]) (7, 9)
   = Ok ([7; 8; 9], Spectra1 [3; 4; 5])
   /\ length [3; 4; 5] = length [7; 8; 9])
  /\ exists p_ext,
      trim_spectrum [5; 6; 7] (Spectra2 (Np.Array2 [[1; 2; 3]; [4; 5; 6]] 3))
                    (6, 7)
      = Ok ([6; 7], Spectra2 p_ext)
      /\ Np.rows p_ext = [[2; 3]; [5; 6]]
      /\ Np.shape p_ext = (2%nat, 2%nat)
      /\ Np.rectangular p_ext.
Proof.
  split.
  - apply (proj1 trim_spectrum_masks_last_axis Z Z_Scalar Z
             [5; 6; 7; 8; 9] [1; 2; 3; 4; 5] (7, 9)).
    reflexivity.
  - apply (proj1 (proj2 trim_spectrum_masks_last_axis) Z Z_Scalar Z
             [5; 6; 7] (Np.Array2 [[1; 2; 3]; [4; 5; 6]] 3) (6, 7)).
    + reflexivity.
    + repeat constructor.
Defined.


(** ** Rounded halves and slices *)

Lemma floor_half_div (n : Z) : Np.floor_half n = n / 2.
Proof. unfold Np.floor_half. cbn. rewrite Z.mul_1_r. reflexivity. Qed.

Lemma ceil_half_div (n : Z) : Np.ceil_half n = - (- n / 2).
Proof. unfold Np.ceil_half, Qceiling. cbn. rewrite Z.mul_1_r. reflexivity. Qed.

Lemma floor_half_is_floor (n : Z) : is_floor_half n (Np.floor_half n).
Proof.
  unfold is_floor_half. rewrite floor_half_div.
  pose proof (Z.div_mod n 2 ltac:(lia)).
  pose proof (Z.mod_pos_bound n 2 ltac:(lia)). lia.
Qed.

Lemma ceil_half_is_ceil (n : Z) : is_ceil_half n (Np.ceil_half n).
Proof.
  unfold is_ceil_half. rewrite ceil_half_div.
  pose proof (Z.div_mod (- n) 2 ltac:(lia)).
  pose proof (Z.mod_pos_bound (- n) 2 ltac:(lia)). lia.
Qed.

Lemma floor_ceil_half_sum (n : Z) : Np.floor_half n + Np.ceil_half n = n.
Proof.
  rewrite floor_half_div, ceil_half_div.
  pose proof (Z.div_mod n 2 ltac:(lia)).
  pose proof (Z.mod_pos_bound n 2 ltac:(lia)).
  pose proof (Z.div_mod (- n) 2 ltac:(lia)).
  pose proof (Z.mod_pos_bound (- n) 2 ltac:(lia)). lia.
Qed.

Lemma clamp_index_nonneg (len i : Z) :
  0 <= i -> Np.clamp_index len i = Z.min i len.
Proof.
  intros H. unfold Np.clamp_index.
  destruct (i <? 0) eqn:E; [apply Z.ltb_lt in E; lia | reflexivity].
Qed.

Lemma getitem_slice_is_slice {T} (arr : list T) (start stop : Z) :
  0 <= start -> 0 <= stop ->
  is_slice arr start stop (Np.getitem_slice arr start stop).
Proof.
  intros Hs He i. unfold Np.getitem_slice.
  rewrite !clamp_index_nonneg by assumption.
  rewrite nth_error_firstn, nth_error_skipn.
  set (len := Z.of_nat (length arr)).
  destruct (Nat.ltb_spec i (Z.to_nat (Z.min stop len - Z.min start len)))
    as [Hi|Hi];
    destruct (Z.ltb_spec (start + Z.of_nat i) stop) as [Hj|Hj].
  - f_equal. lia.
  - lia.
  - symmetry. apply nth_error_None. fold len in Hi |- *. lia.
  - reflexivity.
Qed.

Lemma getitem_slice_length {T} (arr : list T) (start stop : Z) :
  0 <= start -> 0 <= stop ->
  Z.of_nat (length (Np.getitem_slice arr start stop))
  = Z.max 0 (Z.min stop (Z.of_nat (length arr))
             - Z.min start (Z.of_nat (length arr))).
Proof.
  intros Hs He. unfold Np.getitem_slice.
  rewrite !clamp_index_nonneg by assumption.
  rewrite length_firstn, length_skipn. lia.
Qed.

(** ** get_positive_fft_outputs *)

Section PositiveFft.
Context {A B : Type}.

Lemma is_slice_hd {T} (arr out : list T) (stop : Z) :
  is_slice arr 0 stop out -> (length arr = 0%nat \/ 0 < stop) ->
  hd_error out = hd_error arr.
Proof.
  intros Hsl Hne. rewrite <- !nth_error_0, (Hsl 0%nat). simpl.
  destruct (Z.ltb_spec 0 stop) as [H|H]; [reflexivity|].
  destruct Hne as [Hnil|Hpos]; [|lia].
  destruct arr; [reflexivity | discriminate].
Qed.

(** C4. [get_positive_fft_outputs] returns [freqs[start:stop]] with
    [start = 1 if drop_zero else 0] and [stop = ceil(N / 2)]: the
    frequencies alone without [powers], and with [powers] the pair of
    that slice and the same slice of [powers], of one length when
    [powers] has [N] elements.  With [drop_zero = False] the slice begins
    with [freqs[0]] and has [N / 2] elements for even [N], [ceil(N / 2)]
    for odd [N]; with [drop_zero = True] it begins at index 1. *)
Theorem positive_fft_is_half_slice (freqs : list A) (powers : list B)
    (Hp : length powers = length freqs) :
  let N := Z.of_nat (length freqs) in
  exists stop,
    is_ceil_half N stop
    /\ forall drop_zero : bool,
      let start := if drop_zero then 1 else 0 in
      exists f p,
        get_positive_fft_outputs freqs (@None (list B)) drop_zero = Freqs f
        /\ get_positive_fft_outputs freqs (Some powers) drop_zero
           = FreqsPowers f p
        /\ is_slice freqs start stop f
        /\ is_slice powers start stop p
        /\ length p = length f
        /\ if drop_zero
           then Z.of_nat (length f) = Z.max (stop - 1) 0
           else Z.of_nat (length f) = (if Z.even N then N / 2 else stop)
                /\ hd_error f = hd_error freqs.
Proof.
  intros N. exists (Np.ceil_half N).
  pose proof (ceil_half_is_ceil N) as Hceil. split; [exact Hceil|].
  unfold is_ceil_half in Hceil.
  assert (HN : 0 <= N) by apply Nat2Z.is_nonneg.
  intros drop_zero start.
  assert (Hstart : 0 <= start) by (unfold start; destruct drop_zero; lia).
  assert (Hstop : 0 <= Np.ceil_half N) by lia.
  pose proof (getitem_slice_length freqs Hstart Hstop) as Lf.
  pose proof (getitem_slice_length powers Hstart Hstop) as Lp.
  pose proof (getitem_slice_is_slice freqs Hstart Hstop) as Sf.
  pose proof (getitem_slice_is_slice powers Hstart Hstop) as Sp.
  rewrite Hp in Lp.
  exists (Np.getitem_slice freqs start (Np.ceil_half N)),
         (Np.getitem_slice powers start (Np.ceil_half N)).
  split; [reflexivity|]. split; [reflexivity|].
  split; [exact Sf|]. split; [exact Sp|].
  fold N in Lf, Lp. split; [lia|].
  subst start. destruct drop_zero.
  - lia.
  - split.
    + destruct (Z.even N) eqn:Ev.
      * apply Z.even_spec in Ev. destruct Ev as [k Hk].
        assert (Hhalf : N / 2 = k)
          by (rewrite Hk, Z.mul_comm; apply Z.div_mul; lia).
        lia.
      * lia.
    + apply is_slice_hd with (stop := Np.ceil_half N); [exact Sf|].
      destruct (Z.eq_dec N 0) as [H0|H0]; [left|right]; lia.
Qed.

(** C10. [get_positive_fft_outputs] returns on every input length.  With
    [drop_zero = True] the frequencies returned are
    [max(ceil(N / 2) - 1, 0)], and so are the powers when [N] of them are
    passed; for [N <= 1] both are empty; with [drop_zero = False] and
    [N = 0] both are empty. *)
Theorem positive_fft_is_total (freqs : list A) (powers : list B) :
  let N := Z.of_nat (length freqs) in
  exists stop f,
    is_ceil_half N stop
    /\ get_positive_fft_outputs freqs (@None (list B)) true = Freqs f
    /\ Z.of_nat (length f) = Z.max (stop - 1) 0
    /\ (exists p,
          get_positive_fft_outputs freqs (Some powers) true = FreqsPowers f p
          /\ (length powers = length freqs -> length p = length f)
          /\ (N <= 1 -> f = [] /\ p = []))
    /\ (N = 0 ->
        get_positive_fft_outputs freqs (@None (list B)) false = Freqs []
        /\ get_positive_fft_outputs freqs (Some powers) false
           = FreqsPowers [] []).
Proof.
  intros N.
  pose proof (ceil_half_is_ceil N) as Hceil. unfold is_ceil_half in Hceil.
  assert (HN : 0 <= N) by apply Nat2Z.is_nonneg.
  assert (Hstop : 0 <= Np.ceil_half N) by lia.
  pose proof (getitem_slice_length freqs (start := 1) ltac:(lia) Hstop) as Lf.
  pose proof (getitem_slice_length powers (start := 1) ltac:(lia) Hstop) as Lp.
  fold N in Lf.
  exists (Np.ceil_half N). eexists.
  split; [apply ceil_half_is_ceil|]. split; [reflexivity|].
  fold N. split; [lia|]. split.
  - eexists. split; [reflexivity|]. fold N. split.
    + intros Hp. rewrite Hp in Lp. fold N in Lp. lia.
    + intros H1. split; apply length_zero_iff_nil; lia.
  - intros H0.
    pose proof (getitem_slice_length freqs (start := 0) ltac:(lia) Hstop) as Zf.
    pose proof (getitem_slice_length powers (start := 0) ltac:(lia) Hstop) as Zp.
    fold N in Zf. unfold get_positive_fft_outputs. fold N.
    assert (Ef : Np.getitem_slice freqs 0 (Np.ceil_half N) = [])
      by (apply length_zero_iff_nil; lia).
    assert (Ep : Np.getitem_slice powers 0 (Np.ceil_half N) = [])
      by (apply length_zero_iff_nil; lia).
    rewrite Ef, Ep. split; reflexivity.
Qed.

End PositiveFft.

(** ** pad_signal *)

Section Padding.
Context {A : Type} {SA : Scalar A}.
Variable next_fast_len : Z -> Z.

Lemma pad_constant_ok (arr : list A) (left right : Z) :
  0 <= left -> 0 <= right ->
  Np.pad_constant arr left right
  = Ok (repeat zero (Z.to_nat left) ++ arr ++ repeat zero (Z.to_nat right)).
Proof.
  intros Hl Hr. unfold Np.pad_constant.
  rewrite (proj2 (Z.ltb_ge left 0) Hl), (proj2 (Z.ltb_ge right 0) Hr).
  reflexivity.
Qed.

Lemma pad_signal_short (sig : list A) (length : Z) (fast_len : bool) :
  length <= Z.of_nat (List.length sig) ->
  pad_signal next_fast_len sig length fast_len = Ok sig.
Proof.
  intros H. unfold pad_signal.
  destruct (Z.gtb_spec length (Z.of_nat (List.length sig))); [lia|].
  reflexivity.
Qed.

(** C6. [pad_signal] only pads: a target length that does not exceed the
    length of [sig] gives [sig] back unchanged, whatever [fast_len]
    is. *)
Theorem pad_signal_never_truncates (sig : list A) (length : Z)
    (fast_len : bool) (Hlen : length <= Z.of_nat (List.length sig)) :
  pad_signal next_fast_len sig length false = Ok sig
  /\ pad_signal next_fast_len sig length true = Ok sig
  /\ pad_signal next_fast_len sig length fast_len = Ok sig.
Proof. repeat split; apply pad_signal_short; exact Hlen. Qed.

Hypothesis next_fast_len_ge : forall n, n <= next_fast_len n.

Lemma pad_signal_long (sig : list A) (length : Z) (fast_len : bool) :
  Z.of_nat (List.length sig) < length ->
  let total :=
    adjusted_length next_fast_len length fast_len
    - Z.of_nat (List.length sig) in
  0 < total
  /\ pad_signal next_fast_len sig length fast_len
     = Ok (repeat zero (Z.to_nat (Np.floor_half total)) ++ sig
           ++ repeat zero (Z.to_nat (Np.ceil_half total))).
Proof.
  intros H total.
  assert (Htot : 0 < total).
  { unfold total, adjusted_length. destruct fast_len; [|lia].
    pose proof (next_fast_len_ge length). lia. }
  split; [exact Htot|]. unfold pad_signal.
  destruct (Z.gtb_spec length (Z.of_nat (List.length sig))); [|lia].
  fold (adjusted_length next_fast_len length fast_len). fold total.
  pose proof (floor_half_is_floor total) as Hf.
  pose proof (ceil_half_is_ceil total) as Hc.
  unfold is_floor_half, is_ceil_half in *.
  apply pad_constant_ok; lia.
Qed.

Lemma skip_take_middle {T} (l1 l l2 : list T) :
  firstn (List.length l) (skipn (List.length l1) (l1 ++ l ++ l2)) = l.
Proof.
  rewrite skipn_app, skipn_all, Nat.sub_diag. simpl.
  rewrite firstn_app, firstn_all, Nat.sub_diag. simpl.
  apply app_nil_r.
Qed.

(** The general part of C5. *)
Lemma pad_signal_split (sig : list A) (length : Z) (fast_len : bool) :
  Z.of_nat (List.length sig) < length ->
  let total_pad :=
    adjusted_length next_fast_len length fast_len
    - Z.of_nat (List.length sig) in
  exists left right : nat,
    is_floor_half total_pad (Z.of_nat left)
    /\ is_ceil_half total_pad (Z.of_nat right)
    /\ Z.of_nat right = Z.of_nat left + (if Z.odd total_pad then 1 else 0)
    /\ pad_signal next_fast_len sig length fast_len
       = Ok (repeat zero left ++ sig ++ repeat zero right).
Proof.
  intros H total_pad.
  destruct (pad_signal_long sig fast_len H) as [Htot Hrun].
  fold total_pad in Htot, Hrun.
  pose proof (floor_half_is_floor total_pad) as Hf.
  pose proof (ceil_half_is_ceil total_pad) as Hc.
  exists (Z.to_nat (Np.floor_half total_pad)),
         (Z.to_nat (Np.ceil_half total_pad)).
  unfold is_floor_half, is_ceil_half in *.
  rewrite !Z2Nat.id by lia.
  split; [exact Hf|]. split; [exact Hc|]. split; [|exact Hrun].
  destruct (Z.odd total_pad) eqn:Eo.
  - apply Z.odd_spec in Eo. destruct Eo as [m Hm]. lia.
  - rewrite <- Z.negb_even in Eo. apply negb_false_iff in Eo.
    apply Z.even_spec in Eo. destruct Eo as [m Hm]. lia.
Qed.

(** C7, amended. When the target length exceeds the length of [sig], or
    the adjusted target length is the length of [sig], [pad_signal]
    returns an array of the adjusted target length ([length], or
    [next_fast_len length] when [fast_len] is set) that holds the samples
    of [sig], in order, from index [left = floor((adjusted - L) / 2)]
    on. *)
Theorem pad_signal_reaches_target (sig : list A) (length : Z)
    (fast_len : bool)
    (Htarget : Z.of_nat (List.length sig) < length
               \/ adjusted_length next_fast_len length fast_len
                  = Z.of_nat (List.length sig)) :
  output_has_target_length next_fast_len sig length fast_len
  /\ exists (out : list A) (left : nat),
      pad_signal next_fast_len sig length fast_len = Ok out
      /\ is_floor_half (adjusted_length next_fast_len length fast_len
                        - Z.of_nat (List.length sig)) (Z.of_nat left)
      /\ firstn (List.length sig) (skipn left out) = sig.
Proof.
  destruct (Z.lt_ge_cases (Z.of_nat (List.length sig)) length) as [Hlt|Hge].
  - destruct (pad_signal_split sig fast_len Hlt)
      as (left & right & Hf & Hc & _ & Hrun).
    unfold is_floor_half, is_ceil_half in Hf, Hc.
    split.
    + eexists. split; [exact Hrun|].
      rewrite !length_app, !repeat_length. lia.
    + exists (repeat zero left ++ sig ++ repeat zero right), left.
      split; [exact Hrun|]. split; [exact Hf|].
      rewrite <- (repeat_length zero left) at 1. apply skip_take_middle.
  - destruct Htarget as [Hlt|Hadj]; [lia|].
    pose proof (pad_signal_short sig fast_len Hge) as Hrun.
    split.
    + exists sig. split; [exact Hrun | symmetry; exact Hadj].
    + exists sig, 0%nat. split; [exact Hrun|]. rewrite Hadj.
      split; [unfold is_floor_half; lia|].
      simpl. apply firstn_all.
Qed.

End Padding.

(** C5. For a target length above the length [L] of [sig] (replaced by
    [next_fast_len length] first when [fast_len] is set), [pad_signal]
    returns [left] zeros, the samples of [sig] in order, then [right] zeros,
    where [total_pad] is the target minus [L], [left = floor(total_pad / 2)]
    and [right = ceil(total_pad / 2)], so that an odd [total_pad] puts the
    extra zero on the right; [[1,2,3]] to length 5 is padded 1 and 1,
    [[1,2]] to length 5 is padded 1 and 2, [[1,2,3]] to length 6 is padded
    1 and 2. *)
Theorem pad_signal_splits_padding :
  (forall (A : Type) (SA : Scalar A) (next_fast_len : Z -> Z),
      (forall n, n <= next_fast_len n) ->
      forall (sig : list A) (length : Z) (fast_len : bool),
        Z.of_nat (List.length sig) < length ->
        let total_pad :=
          adjusted_length next_fast_len length fast_len
          - Z.of_nat (List.length sig) in
        exists left right : nat,
          is_floor_half total_pad (Z.of_nat left)
          /\ is_ceil_half total_pad (Z.of_nat right)
          /\ Z.of_nat right
             = Z.of_nat left + (if Z.odd total_pad then 1 else 0)
          /\ pad_signal next_fast_len sig length fast_len
             = Ok (repeat zero left ++ sig ++ repeat zero right))
  /\ (forall next_fast_len : Z -> Z,
        pad_signal next_fast_len [1; 2; 3] 5 false = Ok ([0] ++ [1; 2; 3] ++ [0])
        /\ pad_signal next_fast_len [1; 2] 5 false = Ok ([0] ++ [1; 2] ++ [0; 0])
        /\ pad_signal next_fast_len [1; 2; 3] 6 false
           = Ok ([0] ++ [1; 2; 3] ++ [0; 0])).
Proof.
  split.
  - intros A SA next_fast_len Hge sig length fast_len Hlt.
    apply pad_signal_split; assumption.
  - intros next_fast_len. repeat split.
Qed.

(** ** The properties on the arrays of the test suite *)

Import TestUtils.

Lemma next_even_ge (n : Z) : n <= next_even n.
Proof.
  unfold next_even. pose proof (Z.mod_pos_bound n 2 ltac:(lia)). lia.
Qed.

Example test_trim_spectrogram :
  trim_spectrogram freqs times pows (Some (6, 8)) (Some (0, 1))
  = Ok ([6; 7; 8], [0; 1], Np.Array2 [[4; 5]; [7; 8]; [10; 11]] 2).
Proof. reflexivity. Qed.

Example trim_drops_nan :
  trim_spectrum [Fin 5; NaN; Fin 7; Fin 9] (Spectra1 [1; 2; 3; 4])
                (Fin 5, Fin 7)
  = Ok ([Fin 5; Fin 7], Spectra1 [1; 3]).
Proof. reflexivity. Qed.

Lemma trim_selects_range_witness :
  (exists freqs_ext ps_ext,
      trim_spectrum freqs5 (Spectra1 pows5) (6, 8) = Ok (freqs_ext, ps_ext)
      /\ selects_range (6, 8) freqs5 freqs_ext)
  /\ (exists freqs_ext times_ext spg_ext,
      trim_spectrogram freqs times pows (Some (6, 8)) None
      = Ok (freqs_ext, times_ext, spg_ext)
      /\ axis_trimmed (Some (6, 8)) freqs freqs_ext
      /\ axis_trimmed None times times_ext).
Proof.
  pose proof (@trim_selects_range Z Z_Scalar Z freqs5 [0; 1; 2]
                (Spectra1 pows5)
                (Np.Array2 [[1; 2; 3]; [4; 5; 6]; [7; 8; 9]; [10; 11; 12];
                             [13; 14; 15]] 3)
                (6, 8) (Some (6, 8)) None eq_refl eq_refl) as [H1 _].
  pose proof (@trim_selects_range Z Z_Scalar Z freqs times (Spectra1 [1; 2; 3; 4])
                pows (6, 8) (Some (6, 8)) None eq_refl eq_refl) as [_ H2].
  split; [exact H1 | exact H2].
Defined.

Lemma trim_spectrogram_axes_commute_witness :
  Np.shape pows = (length freqs, length times)
  /\ ('(f1, t1, s1) <- trim_spectrogram freqs times pows (Some (6, 8)) None ;;
      trim_spectrogram f1 t1 s1 None (Some (0, 1)))
     = ('(f1, t1, s1) <- trim_spectrogram freqs times pows None (Some (0, 1)) ;;
        trim_spectrogram f1 t1 s1 (Some (6, 8)) None).
Proof.
  split; [reflexivity|].
  destruct (@trim_spectrogram_axes_commute Z Z_Scalar Z freqs times pows
              (6, 8) (0, 1) eq_refl)
    as (fe & te & se & _ & Hft & Htf & _).
  rewrite Hft, Htf. reflexivity.
Defined.

Lemma positive_fft_is_half_slice_witness :
  length fft_powers = length fft_freqs
  /\ exists f p,
      get_positive_fft_outputs fft_freqs (Some fft_powers) true
      = FreqsPowers f p
      /\ length p = length f.
Proof.
  split; [reflexivity|].
  destruct (@positive_fft_is_half_slice Z Z fft_freqs fft_powers eq_refl)
    as (stop & _ & Hall).
  destruct (Hall true) as (f & p & _ & Hrun & _ & _ & Hlen & _).
  exists f, p. split; [exact Hrun | exact Hlen].
Defined.

Lemma positive_fft_is_total_witness :
  exists f p,
    get_positive_fft_outputs [0] (Some [10]) true = FreqsPowers f p
    /\ f = [] /\ p = [].
Proof.
  destruct (@positive_fft_is_total Z Z [0] [10])
    as (stop & f & _ & _ & _ & (p & Hrun & _ & Hsmall) & _).
  exists f, p. split; [exact Hrun|]. apply Hsmall. simpl. lia.
Defined.

Lemma pad_signal_splits_padding_witness :
  exists left right : nat,
    is_floor_half 3 (Z.of_nat left)
    /\ is_ceil_half 3 (Z.of_nat right)
    /\ Z.of_nat right = Z.of_nat left + 1
    /\ pad_signal next_even [1; 2; 3] 5 true
       = Ok (repeat 0 left ++ [1; 2; 3] ++ repeat 0 right).
Proof.
  apply (proj1 pad_signal_splits_padding Z Z_Scalar next_even next_even_ge
           [1; 2; 3] 5 true).
  simpl. lia.
Defined.

Lemma pad_signal_never_truncates_witness :
  3 <= Z.of_nat (length [1; 2; 3; 4])
  /\ pad_signal next_even [1; 2; 3; 4] 3 false = Ok [1; 2; 3; 4]
  /\ pad_signal next_even [1; 2; 3; 4] 3 true = Ok [1; 2; 3; 4]
  /\ pad_signal next_even [1; 2; 3; 4] 3 true = Ok [1; 2; 3; 4].
Proof.
  split; [simpl; lia|].
  apply (@pad_signal_never_truncates Z Z_Scalar next_even [1; 2; 3; 4] 3 true).
  simpl. lia.
Defined.

(** C7 as stated fails: [pad_signal] never truncates, so a signal longer
    than the target keeps its own length. *)
Lemma pad_signal_longer_than_target :
  (forall n : Z, n <= (fun n => n) n)
  /\ pad_signal (fun n => n) [1; 2; 3] 2 false = Ok [1; 2; 3]
  /\ ~ output_has_target_length (fun n => n) [1; 2; 3] 2 false.
Proof.
  split; [intros n; lia|]. split; [reflexivity|].
  intros (out & Hrun & Hlen). cbv in Hrun. injection Hrun as <-.
  discriminate Hlen.
Qed.

Lemma pad_signal_reaches_target_witness :
  output_has_target_length next_even [1; 2; 3] 5 true
  /\ exists (out : list Z) (left : nat),
      pad_signal next_even [1; 2; 3] 5 true = Ok out
      /\ is_floor_half (adjusted_length next_even 5 true - 3) (Z.of_nat left)
      /\ firstn 3 (skipn left out) = [1; 2; 3].
Proof.
  apply (@pad_signal_reaches_target Z Z_Scalar next_even next_even_ge
           [1; 2; 3] 5 true).
  left. simpl. lia.
Defined.

Lemma retrim_is_identity_witness :
  (exists freqs_ext ps_ext,
      trim_spectrum freqs5 (Spectra1 pows5) (6, 8) = Ok (freqs_ext, ps_ext)
      /\ trim_spectrum freqs_ext ps_ext (6, 8) = Ok (freqs_ext, ps_ext))
  /\ (exists freqs_ext times_ext spg_ext,
      trim_spectrogram freqs times pows (Some (6, 8)) (Some (0, 1))
      = Ok (freqs_ext, times_ext, spg_ext)
      /\ trim_spectrogram freqs_ext times_ext spg_ext (Some (6, 8)) (Some (0, 1))
         = Ok (freqs_ext, times_ext, spg_ext)).
Proof.
  pose proof (@retrim_is_identity Z Z_Scalar Z freqs5 [0; 1; 2]
                (Spectra1 pows5)
                (Np.Array2 [[1; 2; 3]; [4; 5; 6]; [7; 8; 9]; [10; 11; 12];
                             [13; 14; 15]] 3)
                (6, 8) None None eq_refl eq_refl) as [H1 _].
  pose proof (@retrim_is_identity Z Z_Scalar Z freqs times (Spectra1 [1; 2; 3; 4])
                pows (6, 8) (Some (6, 8)) (Some (0, 1)) eq_refl eq_refl)
    as [_ H2].
  split; [exact H1 | exact H2].
Defined.

Lemma empty_selection_is_valid_witness :
  no_match (8, 6) freqs
  /\ (exists ps_ext,
        trim_spectrum freqs (Spectra2 (Np.Array2 [[1; 2; 3; 4]; [5; 6; 7; 8]] 4))
                      (8, 6)
        = Ok ([], ps_ext)
        /\ freq_axis_len ps_ext = 0%nat
        /\ spectra_all_empty ps_ext
        /\ n_spectra ps_ext = 2%nat)
  /\ (exists times_ext spg_ext,
        trim_spectrogram freqs times pows (Some (8, 6)) (Some (0, 1))
        = Ok ([], times_ext, spg_ext)
        /\ Np.rows spg_ext = []
        /\ Np.nrows spg_ext = 0%nat).
Proof.
  assert (Hno : no_match (8, 6) freqs) by (left; reflexivity).
  split; [exact Hno|].
  destruct (@empty_selection_is_valid Z Z_Scalar Z freqs times
              (Spectra2 (Np.Array2 [[1; 2; 3; 4]; [5; 6; 7; 8]] 4)) pows
              (8, 6) None (Some (0, 1)) eq_refl eq_refl)
    as (H1 & H2 & _).
  split; [exact (H1 Hno) | exact (H2 Hno)].
Defined.

(** * Further properties *)

(** ** When the trimmers raise *)

Section TrimErrors.
Context {A : Type} {SA : Scalar A} {B : Type}.









End TrimErrors.

(** ** What trimming keeps together, and how trims compose *)

Section TrimAlgebra.
Context {A : Type} {SA : Scalar A} {B : Type}.

Lemma combine_filter_compress {T U} (p : T -> bool) (l : list T) (q : list U) :
  combine (filter p l) (Np.compress (map p l) q)
  = filter (fun c => p (fst c)) (combine l q).
Proof.
  revert q. induction l as [|c l IH]; intros [|x q]; simpl; try reflexivity.
  - destruct (p c); simpl; [reflexivity | apply combine_nil].
  - destruct (p c); simpl; rewrite IH; reflexivity.
Qed.

(** X3. [trim_spectrum] keeps every frequency with its own power: the
    pairs (frequency, power) of the result are the pairs of the input whose
    frequency is in range, in order. *)
Theorem trim_spectrum_keeps_pairs (freqs : list A) (p : list B) (rng : A * A)
    (Hlen : length p = length freqs) :
  exists freqs_ext p_ext,
    trim_spectrum freqs (Spectra1 p) rng = Ok (freqs_ext, Spectra1 p_ext)
    /\ combine freqs_ext p_ext
       = filter (fun c => in_rangeb rng (fst c)) (combine freqs p).
Proof.
  do 2 eexists. split.
  - apply (@trim_spectrum_aligned A SA B freqs (Spectra1 p) rng Hlen).
  - rewrite <- compress_masked, contract_mask_map.
    apply combine_filter_compress.
Qed.

(** X4. A 2-D [power_spectra] is trimmed spectrum by spectrum: each row of
    the result is what [trim_spectrum] returns for that row alone, with the
    same frequencies. *)
Theorem trim_spectrum_rowwise (freqs : list A) (p : Np.array2 B) (rng : A * A)
    (Hcols : Np.ncols p = length freqs) (Hrect : Np.rectangular p) :
  exists freqs_ext p_ext,
    trim_spectrum freqs (Spectra2 p) rng = Ok (freqs_ext, Spectra2 p_ext)
    /\ Forall2 (fun row row_ext =>
                  trim_spectrum freqs (Spectra1 row) rng
                  = Ok (freqs_ext, Spectra1 row_ext))
               (Np.rows p) (Np.rows p_ext).
Proof.
  do 2 eexists. split.
  - apply (@trim_spectrum_aligned A SA B freqs (Spectra2 p) rng Hcols).
  - simpl. unfold Np.rectangular in Hrect. rewrite Hcols in Hrect.
    induction Hrect as [|row rows Hrow Hrows IH]; simpl; constructor.
    + apply (@trim_spectrum_aligned A SA B freqs (Spectra1 row) rng Hrow).
    + exact IH.
Qed.

Lemma filter_filter_and {T} (p1 p2 : T -> bool) (l : list T) :
  filter p2 (filter p1 l) = filter (fun c => p1 c && p2 c) l.
Proof.
  induction l as [|c l IH]; simpl; [reflexivity|].
  destruct (p1 c); simpl; [destruct (p2 c)|]; rewrite IH; reflexivity.
Qed.

Lemma compress_compress_and {T U} (p1 p2 : T -> bool) (l : list T)
    (q : list U) :
  Np.compress (map p2 (filter p1 l)) (Np.compress (map p1 l) q)
  = Np.compress (map (fun c => p1 c && p2 c) l) q.
Proof.
  revert q. induction l as [|c l IH]; intros [|x q]; simpl; try reflexivity.
  - destruct (p1 c); simpl; [reflexivity | apply compress_nil_r].
  - destruct (p1 c); simpl; [destruct (p2 c)|]; rewrite IH; reflexivity.
Qed.

(** The frequencies in both ranges, and [power_spectra] masked by both. *)
Lemma trim_spectrum_twice_aligned (freqs : list A) (ps : spectra B)
    (r1 r2 : A * A) :
  freq_axis_len ps = length freqs ->
  trim_spectrum_twice freqs ps r1 r2
  = Ok (filter (fun c => in_rangeb r1 c && in_rangeb r2 c) freqs,
        spectra_masked
          (map (fun c => in_rangeb r1 c && in_rangeb r2 c) freqs) ps).
Proof.
  intros Hlen. unfold trim_spectrum_twice.
  rewrite (@trim_spectrum_aligned A SA B freqs ps r1 Hlen). simpl bind.
  rewrite trim_spectrum_aligned.
  - rewrite filter_filter_and. do 2 f_equal.
    rewrite !contract_mask_map.
    destruct ps as [p|p]; simpl.
    + rewrite <- !compress_masked, compress_compress_and. reflexivity.
    + f_equal. f_equal.
      * rewrite map_map. apply map_ext. intros row.
        rewrite <- !compress_masked. apply compress_compress_and.
      * change (Np.count_nonzero (map (in_rangeb r2)
                                      (filter (in_rangeb r1) freqs))
                = Np.count_nonzero
                    (map (fun c => in_rangeb r1 c && in_rangeb r2 c) freqs)).
        rewrite !count_nonzero_map, filter_filter_and. reflexivity.
  - rewrite spectra_masked_axis_len
      by (rewrite contract_mask_length; auto).
    apply contract_mask_count.
Qed.

(** X5. Two successive trims of a spectrum can be made in either order:
    trimming to [r1] and then to [r2] returns what trimming to [r2] and
    then to [r1] returns. *)
Theorem trim_spectrum_twice_commutes (freqs : list A) (ps : spectra B)
    (r1 r2 : A * A) (Hlen : freq_axis_len ps = length freqs) :
  exists out,
    trim_spectrum_twice freqs ps r1 r2 = Ok out
    /\ trim_spectrum_twice freqs ps r2 r1 = Ok out.
Proof.
  eexists. split.
  - apply trim_spectrum_twice_aligned. exact Hlen.
  - rewrite (@trim_spectrum_twice_aligned freqs ps r2 r1 Hlen).
    do 2 f_equal.
    + apply filter_ext. intros c. apply andb_comm.
    + f_equal. apply map_ext. intros c. apply andb_comm.
Qed.

Lemma range_within_both (inner outer : A * A) (c : A) :
  range_within inner outer ->
  in_rangeb outer c && in_rangeb inner c = in_rangeb inner c.
Proof.
  intros [Hlo Hhi]. destruct (in_rangeb inner c) eqn:Ein.
  - apply in_rangeb_spec in Ein. destruct Ein as [H1 H2].
    rewrite andb_true_r. apply in_rangeb_spec. split.
    + apply (sle_trans _ _ _ Hlo H1).
    + apply (sle_trans _ _ _ H2 Hhi).
  - apply andb_false_r.
Qed.

(** X6. Trimming a spectrum to a range and then to a range inside it
    returns what trimming to the inner range directly returns. *)
Theorem trim_spectrum_nested (freqs : list A) (ps : spectra B)
    (outer inner : A * A) (Hlen : freq_axis_len ps = length freqs)
    (Hin : range_within inner outer) :
  exists out,
    trim_spectrum freqs ps inner = Ok out
    /\ trim_spectrum_twice freqs ps outer inner = Ok out.
Proof.
  eexists. split.
  - apply trim_spectrum_aligned. exact Hlen.
  - rewrite (@trim_spectrum_twice_aligned freqs ps outer inner Hlen).
    do 2 f_equal.
    + apply filter_ext. intros c. apply range_within_both. exact Hin.
    + rewrite contract_mask_map. f_equal.
      apply map_ext. intros c. apply range_within_both. exact Hin.
Qed.

Lemma filter_all {T} (p : T -> bool) (l : list T) :
  Forall (fun c => p c = true) l -> filter p l = l.
Proof.
  induction 1 as [|c l Hc Hl IH]; simpl; [reflexivity|].
  rewrite Hc, IH. reflexivity.
Qed.

(** X7. A range that contains every frequency changes nothing:
    [trim_spectrum] returns [freqs] and [power_spectra] as they were given
    (a 2-D [power_spectra] with rows of one length). *)
Theorem trim_spectrum_full_range (freqs : list A) (ps : spectra B)
    (rng : A * A) (Hlen : freq_axis_len ps = length freqs)
    (Hrect : spectra_rectangular ps)
    (Hall : Forall (in_range rng) freqs) :
  trim_spectrum freqs ps rng = Ok (freqs, ps).
Proof.
  assert (Hb : Forall (fun c => in_rangeb rng c = true) freqs).
  { revert Hall. apply Forall_impl. intros c. apply in_rangeb_spec. }
  assert (Htrue : Forall (fun b => b = true) (contract_mask rng freqs)).
  { rewrite contract_mask_map. apply Forall_map. exact Hb. }
  assert (Hkeep : forall T (l : list T), length l = length freqs ->
                    masked (contract_mask rng freqs) l = l).
  { intros T l Hl. rewrite <- compress_masked.
    apply compress_all_true; [exact Htrue|].
    rewrite contract_mask_length, Hl. apply Nat.le_refl. }
  rewrite (@trim_spectrum_aligned A SA B freqs ps rng Hlen).
  rewrite (filter_all _ Hb). do 2 f_equal.
  destruct ps as [p|p]; simpl in *.
  - rewrite (Hkeep _ p Hlen). reflexivity.
  - destruct p as [rows ncols]. simpl in *. f_equal. f_equal.
    + unfold Np.rectangular in Hrect. simpl in Hrect.
      induction Hrect as [|row rows' Hrow Hrows IH]; simpl; [reflexivity|].
      rewrite IH, (Hkeep _ row) by congruence. reflexivity.
    + rewrite contract_mask_count, (filter_all _ Hb). symmetry. exact Hlen.
Qed.


(** X9. [trim_spectrogram] keeps every frequency with its own row: the
    pairs (frequency, row) of the result are the pairs of the input whose
    frequency is in [f_range], in order, each row as the time trim leaves
    it. *)
Theorem trim_spectrogram_keeps_rows (freqs times : list A)
    (spg : Np.array2 B) (f_range : A * A) (t_range : option (A * A))
    (Hspg : Np.shape spg = (length freqs, length times)) :
  exists freqs_ext times_ext spg_ext only_times,
    trim_spectrogram freqs times spg (Some f_range) t_range
    = Ok (freqs_ext, times_ext, spg_ext)
    /\ trim_spectrogram freqs times spg None t_range
       = Ok (freqs, times_ext, only_times)
    /\ combine freqs_ext (Np.rows spg_ext)
       = filter (fun c => in_rangeb f_range (fst c))
                (combine freqs (Np.rows only_times)).
Proof.
  do 4 eexists.
  split; [apply trim_spectrogram_aligned; exact Hspg|].
  split; [apply (@trim_spectrogram_aligned A SA B freqs times spg None t_range
                   Hspg)|].
  unfold spg_selected. destruct t_range as [tr|]; simpl.
  - rewrite <- masked_rows_cols.
    rewrite <- (compress_masked (contract_mask f_range freqs)).
    rewrite contract_mask_map. apply combine_filter_compress.
  - rewrite <- compress_masked, contract_mask_map.
    apply combine_filter_compress.
Qed.

End TrimAlgebra.

(** ** Trimming an increasing axis *)

Section SortedAxis.
Context {A : Type} {SA : Scalar A} {B : Type}.

Lemma mask_above_upper (rng : A * A) (c : A) (l : list A) :
  sle c (snd rng) = false -> Forall (fun x => sle c x = true) l ->
  map (in_rangeb rng) l = repeat false (length l).
Proof.
  intros Hc Hl. induction Hl as [|x l Hx Hl IH]; simpl; [reflexivity|].
  rewrite IH. f_equal. unfold in_rangeb.
  destruct (sle x (snd rng)) eqn:Ex; [|apply andb_false_r].
  rewrite (sle_trans _ _ _ Hx Ex) in Hc. discriminate.
Qed.

Lemma mask_above_lower (rng : A * A) (l : list A) :
  increasing l -> Forall (fun x => sle (fst rng) x = true) l ->
  exists k m, map (in_rangeb rng) l = repeat true k ++ repeat false m.
Proof.
  intros Hs. induction Hs as [|x l Hs IH Hx]; intros Hlo.
  - exists 0%nat, 0%nat. reflexivity.
  - inversion Hlo as [|? ? Hlx Hll]; subst. simpl. unfold in_rangeb at 1.
    rewrite Hlx. simpl. destruct (sle x (snd rng)) eqn:Ex.
    + destruct (IH Hll) as (k & m & Hkm). exists (S k), m.
      rewrite Hkm. reflexivity.
    + exists 0%nat, (S (length l)). simpl. f_equal.
      apply (@mask_above_upper rng x l Ex Hx).
Qed.

Lemma mask_of_increasing (rng : A * A) (C : list A) :
  increasing C ->
  exists n1 n2 n3,
    map (in_rangeb rng) C = repeat false n1 ++ repeat true n2 ++ repeat false n3.
Proof.
  intros Hs. induction Hs as [|c l Hs IH Hc].
  - exists 0%nat, 0%nat, 0%nat. reflexivity.
  - simpl. unfold in_rangeb at 1. destruct (sle (fst rng) c) eqn:Elo; simpl.
    + destruct (sle c (snd rng)) eqn:Ehi.
      * assert (Hlo : Forall (fun x => sle (fst rng) x = true) l).
        { revert Hc. apply Forall_impl. intros x Hx.
          apply (sle_trans _ _ _ Elo Hx). }
        destruct (@mask_above_lower rng l Hs Hlo) as (k & m & Hkm).
        exists 0%nat, (S k), m. rewrite Hkm. reflexivity.
      * exists (S (length l)), 0%nat, 0%nat. simpl.
        rewrite app_nil_r. f_equal. apply (@mask_above_upper rng c l Ehi Hc).
    + destruct IH as (n1 & n2 & n3 & Hn). exists (S n1), n2, n3.
      rewrite Hn. reflexivity.
Qed.

Lemma compress_block {T} (n1 n2 n3 : nat) (q : list T) :
  Np.compress (repeat false n1 ++ repeat true n2 ++ repeat false n3) q
  = firstn n2 (skipn n1 q).
Proof.
  revert q. induction n1 as [|n1 IH1]; simpl.
  - induction n2 as [|n2 IH2]; intros q; simpl.
    + apply compress_all_false. apply Forall_forall.
      intros b Hb. apply repeat_spec in Hb. exact Hb.
    + destruct q as [|x q]; [reflexivity|]. rewrite IH2. reflexivity.
  - intros [|x q]; [symmetry; apply firstn_nil | apply IH1].
Qed.

Lemma getitem_slice_block {T} (n1 n2 : nat) (q : list T) :
  (n1 + n2 <= length q)%nat ->
  Np.getitem_slice q (Z.of_nat n1) (Z.of_nat (n1 + n2))
  = firstn n2 (skipn n1 q).
Proof.
  intros H. unfold Np.getitem_slice.
  rewrite !clamp_index_nonneg by lia.
  rewrite !Z.min_l by lia. f_equal; [lia|]. f_equal. lia.
Qed.

(** X10. On an increasing frequency axis trimming is slicing: there are
    indices [i <= j] with [trim_spectrum] returning [freqs[i:j]] and
    [power_spectra[i:j]], one contiguous block of each. *)
Theorem trim_increasing_is_slice (freqs : list A) (p : list B) (rng : A * A)
    (Hlen : length p = length freqs) (Hinc : increasing freqs) :
  exists i j : Z,
    0 <= i <= j /\ j <= Z.of_nat (length freqs)
    /\ trim_spectrum freqs (Spectra1 p) rng
       = Ok (Np.getitem_slice freqs i j, Spectra1 (Np.getitem_slice p i j)).
Proof.
  destruct (@mask_of_increasing rng freqs Hinc) as (n1 & n2 & n3 & Hmask).
  assert (Hn : (n1 + n2 + n3 = length freqs)%nat).
  { rewrite <- (length_map (in_rangeb rng) freqs), Hmask.
    rewrite !length_app, !repeat_length. lia. }
  exists (Z.of_nat n1), (Z.of_nat (n1 + n2)).
  split; [lia|]. split; [lia|].
  rewrite (@trim_spectrum_aligned A SA B freqs (Spectra1 p) rng Hlen).
  simpl. rewrite <- compress_masked, <- compress_map_filter.
  rewrite contract_mask_map, Hmask, !compress_block.
  rewrite !getitem_slice_block by lia. reflexivity.
Qed.

End SortedAxis.

(** ** The positive half of an FFT axis *)

Section PositiveHalf.
Context {A B : Type}.

Lemma getitem_slice_from_0 {T} (arr : list T) (stop : Z) :
  0 <= stop -> Np.getitem_slice arr 0 stop = firstn (Z.to_nat stop) arr.
Proof.
  intros H. unfold Np.getitem_slice.
  rewrite !clamp_index_nonneg by lia.
  rewrite (Z.min_l 0) by lia. simpl skipn.
  destruct (Z.le_gt_cases stop (Z.of_nat (length arr))) as [Hle|Hgt].
  - rewrite (Z.min_l stop) by lia. f_equal. lia.
  - rewrite (Z.min_r stop) by lia. rewrite !firstn_all2 by lia. reflexivity.
Qed.

Lemma getitem_slice_from_1 {T} (arr : list T) (stop : Z) :
  0 <= stop -> Np.getitem_slice arr 1 stop = tl (Np.getitem_slice arr 0 stop).
Proof.
  intros H. rewrite getitem_slice_from_0 by exact H.
  unfold Np.getitem_slice. rewrite !clamp_index_nonneg by lia.
  destruct arr as [|x arr];
    [rewrite skipn_nil, !firstn_nil; reflexivity|].
  rewrite (Z.min_l 1) by (simpl length; lia). simpl skipn.
  destruct (Z.eq_dec stop 0) as [->|Hpos]; [reflexivity|].
  replace (Z.to_nat stop) with (S (Z.to_nat (stop - 1))) by lia.
  simpl tl.
  destruct (Z.le_gt_cases stop (Z.of_nat (length (x :: arr)))) as [Hle|Hgt].
  - rewrite (Z.min_l stop) by lia. reflexivity.
  - rewrite (Z.min_r stop) by lia. simpl length in *.
    rewrite !firstn_all2 by lia. reflexivity.
Qed.

Lemma ceil_half_nonneg (n : nat) : 0 <= Np.ceil_half (Z.of_nat n).
Proof.
  pose proof (ceil_half_is_ceil (Z.of_nat n)) as H.
  unfold is_ceil_half in H. lia.
Qed.

(** X11. Dropping the zero bin removes the first element and nothing else:
    with [drop_zero = True] the frequencies (and the powers, when passed)
    are those returned with [drop_zero = False] without their first
    element. *)
Theorem positive_fft_drop_zero_is_tail (freqs : list A)
    (powers : option (list B)) :
  out_freqs (get_positive_fft_outputs freqs powers true)
  = tl (out_freqs (get_positive_fft_outputs freqs powers false))
  /\ out_powers (get_positive_fft_outputs freqs powers true)
     = option_map (@tl B)
         (out_powers (get_positive_fft_outputs freqs powers false)).
Proof.
  pose proof (ceil_half_nonneg (length freqs)) as Hstop.
  destruct powers as [powers|]; simpl;
    rewrite ?getitem_slice_from_1 by exact Hstop; split; reflexivity.
Qed.

(** X12. [get_positive_fft_outputs] splits the axis in two: what it returns
    with [drop_zero = False] is a prefix of [freqs], and the [floor(N / 2)]
    bins it leaves out are the rest of [freqs]. *)
Theorem positive_fft_is_prefix (freqs : list A) :
  exists rest,
    freqs = out_freqs (get_positive_fft_outputs freqs (@None (list B)) false)
            ++ rest
    /\ is_floor_half (Z.of_nat (length freqs)) (Z.of_nat (length rest)).
Proof.
  pose proof (ceil_half_nonneg (length freqs)) as Hstop.
  pose proof (ceil_half_is_ceil (Z.of_nat (length freqs))) as Hceil.
  unfold is_ceil_half in Hceil.
  exists (skipn (Z.to_nat (Np.ceil_half (Z.of_nat (length freqs)))) freqs).
  simpl. rewrite getitem_slice_from_0 by exact Hstop. split.
  - symmetry. apply firstn_skipn.
  - unfold is_floor_half. rewrite length_skipn. lia.
Qed.

End PositiveHalf.

Lemma arange_length (a b : Z) : length (arange a b) = Z.to_nat (b - a).
Proof. unfold arange. rewrite length_map, length_seq. reflexivity. Qed.

Lemma arange_In (a b x : Z) : In x (arange a b) -> a <= x < b.
Proof.
  unfold arange. intros H. apply in_map_iff in H.
  destruct H as (i & <- & Hi). apply in_seq in Hi. lia.
Qed.

Lemma arange_from_0 (b : Z) :
  0 < b -> arange 0 b = 0 :: arange 1 b.
Proof.
  intros H. unfold arange.
  replace (Z.to_nat (b - 0)) with (S (Z.to_nat (b - 1))) by lia.
  cbn [seq map]. f_equal.
  rewrite <- seq_shift, map_map. apply map_ext. intros i.
  rewrite Nat2Z.inj_succ. lia.
Qed.

Lemma filter_none {T} (p : T -> bool) (l : list T) :
  (forall x, In x l -> p x = false) -> filter p l = [].
Proof.
  induction l as [|x l IH]; simpl; intros H; [reflexivity|].
  rewrite (H x (or_introl eq_refl)). apply IH. intros y Hy. apply H. now right.
Qed.

Lemma filter_every {T} (p : T -> bool) (l : list T) :
  (forall x, In x l -> p x = true) -> filter p l = l.
Proof.
  induction l as [|x l IH]; simpl; intros H; [reflexivity|].
  rewrite (H x (or_introl eq_refl)). f_equal. apply IH.
  intros y Hy. apply H. now right.
Qed.

(** X13. On the axis [np.fft.fftfreq] produces, slicing by index is
    selecting by sign: for [n >= 1] bins, [get_positive_fft_outputs]
    returns exactly the non-negative frequencies, and with
    [drop_zero = True] exactly the positive ones. *)
Theorem positive_fft_of_fftfreq (n : Z) (Hn : 0 < n) :
  Z.of_nat (length (fftfreq_bins n)) = n
  /\ get_positive_fft_outputs (fftfreq_bins n) (@None (list Z)) false
     = Freqs (filter (fun f => 0 <=? f) (fftfreq_bins n))
  /\ get_positive_fft_outputs (fftfreq_bins n) (@None (list Z)) true
     = Freqs (filter (fun f => 0 <? f) (fftfreq_bins n)).
Proof.
  pose proof (Z.div_mod n 2 ltac:(lia)) as D1.
  pose proof (Z.mod_pos_bound n 2 ltac:(lia)) as B1.
  pose proof (Z.div_mod (n - 1) 2 ltac:(lia)) as D2.
  pose proof (Z.mod_pos_bound (n - 1) 2 ltac:(lia)) as B2.
  pose proof (Z.div_mod (- n) 2 ltac:(lia)) as D3.
  pose proof (Z.mod_pos_bound (- n) 2 ltac:(lia)) as B3.
  assert (Hlen : Z.of_nat (length (fftfreq_bins n)) = n).
  { unfold fftfreq_bins. rewrite length_app, !arange_length. lia. }
  split; [exact Hlen|].
  assert (Hstop : Np.ceil_half (Z.of_nat (length (fftfreq_bins n)))
                  = (n - 1) / 2 + 1).
  { rewrite Hlen, ceil_half_div. lia. }
  unfold get_positive_fft_outputs. rewrite Hstop.
  rewrite getitem_slice_from_1, getitem_slice_from_0 by lia.
  assert (Hfirst : firstn (Z.to_nat ((n - 1) / 2 + 1)) (fftfreq_bins n)
                   = arange 0 ((n - 1) / 2 + 1)).
  { unfold fftfreq_bins. rewrite firstn_app, arange_length.
    rewrite firstn_all2 by (rewrite arange_length; lia).
    replace (Z.to_nat ((n - 1) / 2 + 1) - Z.to_nat ((n - 1) / 2 + 1 - 0))%nat
      with 0%nat by lia.
    apply app_nil_r. }
  rewrite Hfirst. unfold fftfreq_bins. rewrite !filter_app.
  rewrite (filter_none (fun f => 0 <=? f) (arange (- (n / 2)) 0)),
          (filter_none (fun f => 0 <? f) (arange (- (n / 2)) 0)), !app_nil_r.
  - split; f_equal.
    + symmetry. apply filter_every. intros x Hx. apply arange_In in Hx.
      apply Z.leb_le. lia.
    + rewrite arange_from_0 by lia. simpl. symmetry. apply filter_every.
      intros x Hx. apply arange_In in Hx. apply Z.ltb_lt. lia.
  - intros x Hx. apply arange_In in Hx. apply Z.ltb_ge. lia.
  - intros x Hx. apply arange_In in Hx. apply Z.leb_gt. lia.
Qed.

(** ** More on pad_signal *)

Section PaddingMore.
Context {A : Type} {SA : Scalar A}.
Variable next_fast_len : Z -> Z.

Lemma padded_length (sig : list A) (total : Z) :
  0 <= total ->
  Z.of_nat (List.length (repeat zero (Z.to_nat (Np.floor_half total)) ++ sig
                         ++ repeat zero (Z.to_nat (Np.ceil_half total))))
  = Z.of_nat (List.length sig) + total.
Proof.
  intros H. rewrite !length_app, !repeat_length.
  pose proof (floor_half_is_floor total) as Hf.
  pose proof (ceil_half_is_ceil total) as Hc.
  pose proof (floor_ceil_half_sum total) as Hs.
  unfold is_floor_half, is_ceil_half in *. lia.
Qed.

(** X14. Without [fast_len], [pad_signal] never raises and returns
    [max(len(sig), length)] samples: [length] of them whenever [length] is
    at least the length of [sig], as the four cases of [test_pad_signal]
    assert. *)
Theorem pad_signal_plain_length (sig : list A) (length : Z) :
  exists out,
    pad_signal next_fast_len sig length false = Ok out
    /\ Z.of_nat (List.length out) = Z.max (Z.of_nat (List.length sig)) length.
Proof.
  destruct (Z.le_gt_cases length (Z.of_nat (List.length sig))) as [Hle|Hgt].
  - exists sig. split; [|lia].
    apply (@pad_signal_short A SA next_fast_len sig length false Hle).
  - pose proof (floor_half_is_floor (length - Z.of_nat (List.length sig))) as Hf.
    pose proof (ceil_half_is_ceil (length - Z.of_nat (List.length sig))) as Hc.
    unfold is_floor_half, is_ceil_half in *.
    eexists. split.
    + unfold pad_signal.
      destruct (Z.gtb_spec length (Z.of_nat (List.length sig))); [|lia].
      apply pad_constant_ok; lia.
    + rewrite padded_length by lia. lia.
Qed.

Hypothesis next_fast_len_ge : forall n, n <= next_fast_len n.

(** X15. Padding twice is padding once: [pad_signal] applied with the same
    [length] and [fast_len] to what it returned gives that array back. *)
Theorem pad_signal_idempotent (sig : list A) (length : Z) (fast_len : bool) :
  exists out,
    pad_signal next_fast_len sig length fast_len = Ok out
    /\ pad_signal next_fast_len out length fast_len = Ok out.
Proof.
  destruct (Z.le_gt_cases length (Z.of_nat (List.length sig))) as [Hle|Hgt].
  - pose proof (@pad_signal_short A SA next_fast_len sig length fast_len Hle)
      as Hrun.
    exists sig. split; exact Hrun.
  - destruct (@pad_signal_long A SA next_fast_len next_fast_len_ge sig length
                fast_len ltac:(lia)) as [Htot Hrun].
    eexists. split; [exact Hrun|].
    apply pad_signal_short. rewrite padded_length by lia.
    unfold adjusted_length. destruct fast_len; [|lia].
    pose proof (next_fast_len_ge length). lia.
Qed.

End PaddingMore.

(** ** Float coordinates *)

(** X16. With float coordinates, a NaN frequency is never kept, and a NaN
    bound selects nothing: [trim_spectrum] returns an empty selection
    rather than raising. *)
Theorem trim_spectrum_nan (B : Type) (freqs : list fnum) (ps : spectra B)
    (rng : fnum * fnum) (Hlen : freq_axis_len ps = length freqs) :
  exists freqs_ext ps_ext,
    trim_spectrum freqs ps rng = Ok (freqs_ext, ps_ext)
    /\ ~ In NaN freqs_ext
    /\ (fst rng = NaN \/ snd rng = NaN -> freqs_ext = []).
Proof.
  do 2 eexists. split; [|split].
  - apply (@trim_spectrum_aligned fnum fnum_Scalar B freqs ps rng Hlen).
  - intros Hin. apply filter_In in Hin. destruct Hin as [_ Hr].
    unfold in_rangeb in Hr. simpl in Hr.
    destruct (fst rng); discriminate.
  - intros Hnan. apply filter_none. intros c _. unfold in_rangeb. simpl.
    destruct Hnan as [-> | ->]; simpl; [reflexivity|].
    destruct c; simpl; apply andb_false_r.
Qed.

(** ** The further properties on the arrays of the test suite *)

Example fftfreq_bins_odd : fftfreq_bins 5 = fft_freqs.
Proof. reflexivity. Qed.

Example fftfreq_bins_even : fftfreq_bins 4 = [0; 1; -2; -1].
Proof. reflexivity. Qed.

Lemma trim_spectrum_keeps_pairs_witness :
  exists freqs_ext p_ext,
    trim_spectrum freqs5 (Spectra1 pows5) (6, 8)
    = Ok (freqs_ext, Spectra1 p_ext)
    /\ combine freqs_ext p_ext = [(6, 2); (7, 3); (8, 4)].
Proof.
  apply (@trim_spectrum_keeps_pairs Z Z_Scalar Z freqs5 pows5 (6, 8)).
  reflexivity.
Defined.

Lemma trim_spectrum_rowwise_witness :
  exists freqs_ext p_ext,
    trim_spectrum times (Spectra2 pows) (0, 1) = Ok (freqs_ext, Spectra2 p_ext)
    /\ Forall2 (fun row row_ext =>
                  trim_spectrum times (Spectra1 row) (0, 1)
                  = Ok (freqs_ext, Spectra1 row_ext))
               (Np.rows pows) (Np.rows p_ext).
Proof.
  apply (@trim_spectrum_rowwise Z Z_Scalar Z times pows (0, 1)).
  - reflexivity.
  - repeat constructor.
Defined.

Lemma trim_spectrum_twice_commutes_witness :
  exists out,
    trim_spectrum_twice freqs5 (Spectra1 pows5) (5, 7) (6, 9) = Ok out
    /\ trim_spectrum_twice freqs5 (Spectra1 pows5) (6, 9) (5, 7) = Ok out.
Proof.
  apply (@trim_spectrum_twice_commutes Z Z_Scalar Z freqs5 (Spectra1 pows5)
           (5, 7) (6, 9)).
  reflexivity.
Defined.

Lemma trim_spectrum_nested_witness :
  range_within (6, 7) (5, 8)
  /\ exists out,
      trim_spectrum freqs5 (Spectra1 pows5) (6, 7) = Ok out
      /\ trim_spectrum_twice freqs5 (Spectra1 pows5) (5, 8) (6, 7) = Ok out.
Proof.
  assert (Hin : range_within (6, 7) (5, 8)) by (split; reflexivity).
  split; [exact Hin|].
  apply (@trim_spectrum_nested Z Z_Scalar Z freqs5 (Spectra1 pows5)
           (5, 8) (6, 7) eq_refl Hin).
Defined.

Lemma trim_spectrum_full_range_witness :
  trim_spectrum times (Spectra2 pows) (0, 2) = Ok (times, Spectra2 pows).
Proof.
  apply (@trim_spectrum_full_range Z Z_Scalar Z times (Spectra2 pows) (0, 2)).
  - reflexivity.
  - repeat constructor.
  - repeat constructor.
Defined.

Lemma trim_spectrogram_keeps_rows_witness :
  exists freqs_ext times_ext spg_ext only_times,
    trim_spectrogram freqs times pows (Some (6, 8)) (Some (0, 1))
    = Ok (freqs_ext, times_ext, spg_ext)
    /\ trim_spectrogram freqs times pows None (Some (0, 1))
       = Ok (freqs, times_ext, only_times)
    /\ combine freqs_ext (Np.rows spg_ext)
       = filter (fun c => in_rangeb (6, 8) (fst c))
                (combine freqs (Np.rows only_times)).
Proof.
  apply (@trim_spectrogram_keeps_rows Z Z_Scalar Z freqs times pows
           (6, 8) (Some (0, 1))).
  reflexivity.
Defined.

Lemma trim_increasing_is_slice_witness :
  increasing freqs5
  /\ exists i j : Z,
      0 <= i <= j /\ j <= 5
      /\ trim_spectrum freqs5 (Spectra1 pows5) (6, 8)
         = Ok (Np.getitem_slice freqs5 i j,
               Spectra1 (Np.getitem_slice pows5 i j)).
Proof.
  assert (Hinc : increasing freqs5).
  { unfold increasing, freqs5. repeat constructor. }
  split; [exact Hinc|].
  apply (@trim_increasing_is_slice Z Z_Scalar Z freqs5 pows5 (6, 8)
           eq_refl Hinc).
Defined.

Lemma positive_fft_of_fftfreq_witness :
  get_positive_fft_outputs (fftfreq_bins 4) (@None (list Z)) false
  = Freqs (filter (fun f => 0 <=? f) (fftfreq_bins 4)).
Proof.
  apply (@positive_fft_of_fftfreq 4). reflexivity.
Defined.

Lemma pad_signal_idempotent_witness :
  exists out,
    pad_signal next_even [1; 2; 3] 5 true = Ok out
    /\ pad_signal next_even out 5 true = Ok out.
Proof.
  apply (@pad_signal_idempotent Z Z_Scalar next_even next_even_ge
           [1; 2; 3] 5 true).
Defined.

Lemma trim_spectrum_nan_witness :
  exists freqs_ext ps_ext,
    trim_spectrum [Fin 5; NaN; Fin 7] (Spectra1 [1; 2; 3]) (Fin 5, NaN)
    = Ok (freqs_ext, ps_ext)
    /\ ~ In NaN freqs_ext
    /\ (Fin 5 = NaN \/ NaN = NaN -> freqs_ext = []).
Proof.
  apply (@trim_spectrum_nan Z [Fin 5; NaN; Fin 7] (Spectra1 [1; 2; 3])
           (Fin 5, NaN)).
  reflexivity.
Defined.
